(** * pstack: the ELF object model (elf.cc) and the vtable scanner (canal)

    A shallow embedding of [ElfObject] (header parsing, segment and symbol
    lookups, the SysV hash accelerator, the debug companion) and of the
    [canal] scanner (glob matching, the address-sorted symbol list, the
    page sweep, the exit path of [main]), followed by the properties of
    the specification that concern them. *)

From Stdlib Require Import ZArith List String Ascii Lia Bool.
From stdpp Require Import gmap strings list.

Local Open Scope Z_scope.

(** ** Machine arithmetic *)

Module Word.

(** The width of [Elf_Addr], [Elf_Off], [Elf_Xword], [size_t] and of a
    pointer: the 64-bit build (the build derives the width from the size
    of a pointer of the platform). *)
Definition ELF_BITS : Z := 64.

Definition modulus : Z := 2 ^ ELF_BITS.

(** Unsigned wrap-around of the address-sized types. *)
Definition wrap (x : Z) : Z := x mod modulus.

(** [std::numeric_limits<Elf_Off>::max()]. *)
Definition Elf_Off_max : Z := modulus - 1.

(** [uint32_t] / [Elf_Word]. *)
Definition wrap32 (x : Z) : Z := x mod 2 ^ 32.

End Word.

(** ** Results of fallible code

    A C++ call either returns, throws, or does not come back: it steps
    outside what the language defines (an unchecked index past the end of
    a vector, a read through a stray pointer, a null pointer dereference,
    a division by zero) or calls [abort()]. *)

Inductive Error : Type :=
| NotElf (what : string)     (* "<reader>: content is not an ELF image" *)
| ReadFailed                 (* the reader threw: short read, missing file *)
| LoadFailed.                (* the process layer threw *)

Inductive Fault : Type :=
| OutOfBounds (index size : Z)   (* unchecked [v[index]] with [index >= v.size()] *)
| ReadPastEnd                    (* a read through a pointer that left its buffer *)
| NullDeref
| DivByZero
| Abort.

Inductive Outcome (A : Type) : Type :=
| Done (a : A)
| Throws (e : Error)
| Undefined (f : Fault).

Arguments Done {A} a.
Arguments Throws {A} e.
Arguments Undefined {A} f.

#[global] Instance Outcome_ret : MRet Outcome := fun A x => Done x.
#[global] Instance Outcome_bind : MBind Outcome :=
  fun A B f m =>
    match m with
    | Done a => f a
    | Throws e => Throws e
    | Undefined u => Undefined u
    end.

(** A reader call that throws when it has no value. *)
Definition orThrow {A} (o : option A) : Outcome A :=
  match o with
  | Some a => Done a
  | None => Throws ReadFailed
  end.

(** Unchecked [std::vector::operator[]]. *)
Definition index {A} (v : list A) (i : Z) : Outcome A :=
  if (0 <=? i) && (i <? Z.of_nat (length v))
  then match nth_error v (Z.to_nat i) with
       | Some a => Done a
       | None => Undefined (OutOfBounds i (Z.of_nat (length v)))
       end
  else Undefined (OutOfBounds i (Z.of_nat (length v))).

(** ** ELF structures (the fields the code reads) *)

Module Elf.

Import Word.

Record Elf_Ehdr : Type := {
  e_ident : list Z;       (* unsigned char e_ident[16] *)
  e_phoff : Z;
  e_shoff : Z;
  e_phentsize : Z;
  e_phnum : Z;
  e_shentsize : Z;
  e_shnum : Z;
  e_shstrndx : Z
}.

Record Elf_Phdr : Type := {
  p_type : Z;
  p_offset : Z;
  p_vaddr : Z;
  p_filesz : Z;
  p_memsz : Z
}.

Record Elf_Shdr : Type := {
  sh_name : Z;
  sh_type : Z;
  sh_flags : Z;
  sh_offset : Z;
  sh_size : Z;
  sh_link : Z
}.

Record Elf_Sym : Type := {
  st_name : Z;
  st_info : Z;
  st_shndx : Z;
  st_value : Z;
  st_size : Z
}.

(** Constants of <elf.h>. *)
Definition EI_MAG0 : nat := 0.
Definition EI_MAG1 : nat := 1.
Definition EI_MAG2 : nat := 2.
Definition EI_MAG3 : nat := 3.
Definition EI_VERSION : nat := 6.
Definition ELFMAG0 : Z := 127.
Definition ELFMAG1 : Z := 69.   (* 'E' *)
Definition ELFMAG2 : Z := 76.   (* 'L' *)
Definition ELFMAG3 : Z := 70.   (* 'F' *)
Definition EV_CURRENT : Z := 1.
Definition PT_LOAD : Z := 1.
Definition PT_INTERP : Z := 3.
Definition SHN_UNDEF : Z := 0.
Definition STN_UNDEF : Z := 0.
Definition SHT_NULL : Z := 0.
Definition SHT_PROGBITS : Z := 1.
Definition SHT_SYMTAB : Z := 2.
Definition SHT_HASH : Z := 5.
Definition SHT_NOBITS : Z := 8.
Definition SHT_DYNSYM : Z := 11.
Definition SHF_ALLOC : Z := 2.
Definition STT_NOTYPE : Z := 0.
Definition sizeof_Elf_Sym : Z := 24.
Definition sizeof_Elf_Word : Z := 4.

Definition ELF_ST_TYPE (info : Z) : Z := Z.land info 15.

Definition ident (h : Elf_Ehdr) (i : nat) : Z := nth i (e_ident h) 0.

(** The [IS_ELF] macro. *)
Definition IS_ELF (h : Elf_Ehdr) : bool :=
  (ident h EI_MAG0 =? ELFMAG0) && (ident h EI_MAG1 =? ELFMAG1) &&
  (ident h EI_MAG2 =? ELFMAG2) && (ident h EI_MAG3 =? ELFMAG3).

(** ** The reader

    [Reader] (reader.cc) is used through typed reads: [readObj] of each
    record type at a byte offset, [readObj] of an array of words, and
    [readString].  [None] stands for the exception the reader throws. *)
Record Reader : Type := {
  describe : string;
  readEhdr : Z -> option Elf_Ehdr;
  readPhdr : Z -> option Elf_Phdr;
  readShdr : Z -> option Elf_Shdr;
  readSym : Z -> option Elf_Sym;
  readWords : Z -> Z -> option (list Z);
  readString : Z -> option string
}.

(** ** The hash accelerator and the object *)

Record ElfSymHash : Type := {
  hashSection : nat;       (* [hash]: index of the SHT_HASH section *)
  syms : Elf_Shdr;         (* [syms]: the section [hash.getLink()] points at *)
  data : list Z;
  nbucket : Z;
  nchain : Z;
  strings : Z
}.

(** [buckets = &data[0] + 2] and [chains = buckets + nbucket]. *)
Definition buckets (h : ElfSymHash) (i : Z) : Outcome Z := index (data h) (2 + i).
Definition chains (h : ElfSymHash) (i : Z) : Outcome Z :=
  index (data h) (2 + nbucket h + i).

#[local] Unset Elimination Schemes.
Inductive ElfObject : Type := mkElfObject {
  name : string;
  io : Reader;
  elfHeader : Elf_Ehdr;
  programHeaders : list Elf_Phdr;
  sectionHeaders : list Elf_Shdr;
  (* [std::map<string, Elf_Shdr *>]: a pointer into [sectionHeaders] is an index *)
  namedSection : gmap string nat;
  hash : option ElfSymHash;
  debugLoaded : bool;
  debug : option ElfObject
}.
#[local] Set Elimination Schemes.

(** An [ElfSection]: the owning object and a pointer to one of its
    section headers, or null. *)
Record ElfSection : Type := {
  sec_obj : ElfObject;
  sec_shdr : option nat
}.

(** [operator->] of a section that is not null. *)
Definition shdrOf (s : ElfSection) : Outcome Elf_Shdr :=
  match sec_shdr s with
  | Some i => index (sectionHeaders (sec_obj s)) (Z.of_nat i)
  | None => Undefined NullDeref
  end.

(** [ElfSection::getLink]: [&obj.sectionHeaders[shdr->sh_link]]. *)
Definition getLink (s : ElfSection) : Outcome Elf_Shdr :=
  shdr ← shdrOf s;
  index (sectionHeaders (sec_obj s)) (sh_link shdr).

(** ** Segments *)

Definition coversLoad (a : Z) (hdr : Elf_Phdr) : bool :=
  (p_vaddr hdr <=? a) && (wrap (p_vaddr hdr + p_memsz hdr) >? a) &&
  (p_type hdr =? PT_LOAD).

Definition findHeaderForAddress (obj : ElfObject) (a : Z) : option Elf_Phdr :=
  List.find (coversLoad a) (programHeaders obj).

Definition getSegments (obj : ElfObject) : list Elf_Phdr := programHeaders obj.

Definition getBase_step (base : Z) (i : Elf_Phdr) : Z :=
  if (p_type i =? PT_LOAD) && (p_vaddr i <=? base) then p_vaddr i else base.

Definition getBase (obj : ElfObject) : Z :=
  fold_left getBase_step (getSegments obj) Elf_Off_max.

Definition getInterpreter (obj : ElfObject) : Outcome string :=
  match List.find (fun seg => p_type seg =? PT_INTERP) (getSegments obj) with
  | Some seg => orThrow (readString (io obj) (p_offset seg))
  | None => Done EmptyString
  end.

(** ** The debug companion and section lookup *)

(** [getDebug] opens with [return 0;]: the lookup code that follows it
    in the source ([getDebug_lookup] below) is never reached, and no
    member is written. *)
Definition getDebug (obj : ElfObject) : option ElfObject * ElfObject :=
  (None, obj).

(** The part of [getSection] after the companion was consulted. *)
Definition localSection (obj : ElfObject) (nm : string) (type : Z) : ElfSection :=
  {| sec_obj := obj;
     sec_shdr :=
       match namedSection obj !! nm with
       | Some i =>
           match nth_error (sectionHeaders obj) i with
           | Some h => if (sh_type h =? type) || (type =? SHT_NULL) then Some i else None
           | None => None
           end
       | None => None
       end |}.

(** [getSection]: the companion first (its own [getSection] starts with
    its own [getDebug], which is null, and so is its local lookup),
    then the local name map. *)
Definition getSection (obj : ElfObject) (nm : string) (type : Z) : ElfSection :=
  match fst (getDebug obj) with
  | Some dbg =>
      let debugSection := localSection dbg nm type in
      match sec_shdr debugSection with
      | Some _ => debugSection
      | None => localSection obj nm type
      end
  | None => localSection obj nm type
  end.

(** ** Symbol tables *)

(** [SymbolIterator::operator*]. *)
Definition SymbolIterator_deref (rd : Reader) (off stroff : Z) : Outcome (Elf_Sym * string) :=
  sym ← orThrow (readSym rd off);
  nm ← orThrow (readString rd (wrap (st_name sym + stroff)));
  Done (sym, nm).

(** Modelled from the spec: [SymbolSection] and the stepping of
    [SymbolIterator] are declared in elfinfo.h.  "A cursor into a
    symbol-table section plus its associated string-table section.
    Yields (entry, name) pairs in table order": the entries lie at
    [sh_offset + i * sizeof (Elf_Sym)] for [i] below
    [sh_size / sizeof (Elf_Sym)], the names are read relative to the
    linked section's [sh_offset]; a null section yields nothing. *)
Record SymbolSection : Type := {
  sym_io : Reader;
  sym_begin : Z;
  sym_count : Z;
  stroff : Z
}.

Definition SymbolSection_new (s : ElfSection) : Outcome SymbolSection :=
  match sec_shdr s with
  | None =>
      Done {| sym_io := io (sec_obj s); sym_begin := 0; sym_count := 0; stroff := 0 |}
  | Some _ =>
      shdr ← shdrOf s;
      link ← getLink s;
      Done {| sym_io := io (sec_obj s);
              sym_begin := sh_offset shdr;
              sym_count := sh_size shdr / sizeof_Elf_Sym;
              stroff := sh_offset link |}
  end.

Definition symbolAt (ss : SymbolSection) (i : Z) : Outcome (Elf_Sym * string) :=
  SymbolIterator_deref (sym_io ss) (wrap (sym_begin ss + i * sizeof_Elf_Sym)) (stroff ss).

(** The values the range-for loop meets, in order; each is read when the
    loop reaches it. *)
Definition symbolsIn (ss : SymbolSection) : list (Outcome (Elf_Sym * string)) :=
  List.map (fun i => symbolAt ss (Z.of_nat i)) (seq 0 (Z.to_nat (sym_count ss))).

Definition getSymbols (obj : ElfObject) (table : string) : Outcome SymbolSection :=
  SymbolSection_new (getSection obj table SHT_NULL).

(** ** The hash accelerator *)

(** [ElfSymHash::ElfSymHash]. *)
Definition ElfSymHash_new (hash_ : ElfSection) : Outcome ElfSymHash :=
  symhdr ← getLink hash_;
  shdr ← shdrOf hash_;
  let words := sh_size shdr / sizeof_Elf_Word in
  d ← orThrow (readWords (io (sec_obj hash_)) (sh_offset shdr) words);
  nb ← index d 0;
  nc ← index d 1;
  strhdr ← index (sectionHeaders (sec_obj hash_)) (sh_link symhdr);
  Done {| hashSection := default 0%nat (sec_shdr hash_);
          syms := symhdr;
          data := d;
          nbucket := nb;
          nchain := nc;
          strings := sh_offset strhdr |}.

(** [char] is signed on the targets of the tool: the value added to the
    32-bit hash is the sign-extended byte. *)
Definition char_value (c : ascii) : Z :=
  let n := Z.of_N (N_of_ascii c) in
  if n <? 128 then n else n - 256.

Definition elf_hash_step (h : Z) (c : ascii) : Z :=
  let h := wrap32 (Z.shiftl h 4 + char_value c) in
  let g := Z.land h 4026531840 (* 0xf0000000 *) in
  let h := if negb (g =? 0) then Z.lxor h (Z.shiftr g 24) else h in
  Z.land h (wrap32 (Z.lnot g)).

Definition elf_hash (nm : string) : Z :=
  fold_left elf_hash_step (list_ascii_of_string nm) 0.

(** The chain walk of [ElfSymHash::findSymbol].  The C++ loop has no
    bound of its own; [fuel] counts its iterations and [None] means that
    the walk did not finish within [fuel] of them. *)
Fixpoint findSymbol_walk (fuel : nat) (rd : Reader) (h : ElfSymHash) (nm : string) (i : Z)
  : option (Outcome (option (Elf_Sym * string))) :=
  match fuel with
  | O => None
  | S fuel' =>
      if i =? STN_UNDEF then Some (Done None)
      else
        match readSym rd (wrap (sh_offset (syms h) + i * sizeof_Elf_Sym)) with
        | None => Some (Throws ReadFailed)
        | Some candidate =>
            match readString rd (wrap (strings h + st_name candidate)) with
            | None => Some (Throws ReadFailed)
            | Some candidateName =>
                if String.eqb candidateName nm then Some (Done (Some (candidate, candidateName)))
                else
                  match chains h i with
                  | Done i' => findSymbol_walk fuel' rd h nm i'
                  | Throws e => Some (Throws e)
                  | Undefined u => Some (Undefined u)
                  end
            end
        end
  end.

Definition findSymbol (fuel : nat) (rd : Reader) (h : ElfSymHash) (nm : string)
  : option (Outcome (option (Elf_Sym * string))) :=
  if nbucket h =? 0 then Some (Undefined DivByZero)
  else
    let bucket := elf_hash nm mod nbucket h in
    match buckets h bucket with
    | Done i => findSymbol_walk fuel rd h nm i
    | Throws e => Some (Throws e)
    | Undefined u => Some (Undefined u)
    end.

(** ** Lookup by name *)

Fixpoint linearSymSearch_loop (sec : list (Outcome (Elf_Sym * string))) (nm : string)
  : Outcome (option Elf_Sym) :=
  match sec with
  | [] => Done None
  | info :: rest =>
      info ← info;
      if String.eqb nm (snd info) then Done (Some (fst info))
      else linearSymSearch_loop rest nm
  end.

Definition linearSymSearch (section : ElfSection) (nm : string) : Outcome (option Elf_Sym) :=
  sec ← SymbolSection_new section;
  linearSymSearch_loop (symbolsIn sec) nm.

Definition linearIn (obj : ElfObject) (table : string) (type : Z) (nm : string)
  : Outcome (option Elf_Sym) :=
  let s := getSection obj table type in
  match sec_shdr s with
  | Some _ => linearSymSearch s nm
  | None => Done None
  end.

Definition findSymbolByName (fuel : nat) (obj : ElfObject) (nm : string)
  : option (Outcome (option Elf_Sym)) :=
  let viaHash :=
    match hash obj with
    | Some h => findSymbol fuel (io obj) h nm
    | None => Some (Done None)
    end in
  match viaHash with
  | None => None
  | Some (Throws e) => Some (Throws e)
  | Some (Undefined u) => Some (Undefined u)
  | Some (Done (Some found)) => Some (Done (Some (fst found)))
  | Some (Done None) =>
      Some (r ← linearIn obj ".dynsym" SHT_DYNSYM nm;
            match r with
            | Some sym => Done (Some sym)
            | None => linearIn obj ".symtab" SHT_SYMTAB nm
            end)
  end.

(** ** Lookup by address *)

(** The locals [lowest] and the out-parameters [sym], [name]
    ([held = None]: not written yet). *)
Record AddrSearch : Type := {
  lowest : Z;
  held : option (Elf_Sym * string)
}.

Inductive Examined : Type :=
| ReturnTrue (syminfo : Elf_Sym * string)
| Continue (st : AddrSearch).

(** The body of the inner loop of [findSymbolByAddress]. *)
Definition examine (obj : ElfObject) (addr type : Z) (st : AddrSearch)
           (syminfo : Elf_Sym * string) : Examined :=
  let candidate := fst syminfo in
  if st_shndx candidate >=? Z.of_nat (length (sectionHeaders obj)) then Continue st
  else
    match nth_error (sectionHeaders obj) (Z.to_nat (st_shndx candidate)) with
    | None => Continue st
    | Some shdr =>
        if Z.land (sh_flags shdr) SHF_ALLOC =? 0 then Continue st
        else if negb (type =? STT_NOTYPE) && negb (ELF_ST_TYPE (st_info candidate) =? type)
        then Continue st
        else if st_value candidate >? addr then Continue st
        else if negb (st_size candidate =? 0) then
          if wrap (st_size candidate + st_value candidate) >? addr
          then ReturnTrue syminfo
          else Continue st
        else if lowest st <? st_value candidate then
          Continue {| lowest := st_value candidate; held := Some syminfo |}
        else Continue st
    end.

Fixpoint examineAll (obj : ElfObject) (addr type : Z) (st : AddrSearch)
         (syms : list (Outcome (Elf_Sym * string))) : Outcome Examined :=
  match syms with
  | [] => Done (Continue st)
  | syminfo :: rest =>
      syminfo ← syminfo;
      match examine obj addr type st syminfo with
      | ReturnTrue s => Done (ReturnTrue s)
      | Continue st' => examineAll obj addr type st' rest
      end
  end.

Definition sectionNames : list string := [".symtab"; ".dynsym"]%string.

Fixpoint findSymbolByAddress_tables (obj : ElfObject) (addr type : Z) (st : AddrSearch)
         (names : list string) : Outcome Examined :=
  match names with
  | [] => Done (Continue st)
  | nm :: rest =>
      let symSection := getSection obj nm SHT_NULL in
      match sec_shdr symSection with
      | None => findSymbolByAddress_tables obj addr type st rest
      | Some _ =>
          shdr ← shdrOf symSection;
          if sh_type shdr =? SHT_NOBITS
          then findSymbolByAddress_tables obj addr type st rest
          else
            syms ← SymbolSection_new symSection;
            r ← examineAll obj addr type st (symbolsIn syms);
            match r with
            | ReturnTrue s => Done (ReturnTrue s)
            | Continue st' => findSymbolByAddress_tables obj addr type st' rest
            end
      end
  end.

(** The returned [bool] and what the out-parameters [sym], [name] hold
    afterwards ([None]: untouched). *)
Definition findSymbolByAddress (obj : ElfObject) (addr type : Z)
  : Outcome (bool * option (Elf_Sym * string)) :=
  r ← findSymbolByAddress_tables obj addr type {| lowest := 0; held := None |} sectionNames;
  match r with
  | ReturnTrue s => Done (true, Some s)
  | Continue st => Done (negb (lowest st =? 0), held st)
  end.

(** ** Parsing *)

(** The two header loops of [init]: [n] records, the first at [off],
    [off += stride] after each. *)
Fixpoint readTable {A} (rd : Z -> option A) (off stride : Z) (n : nat) : Outcome (list A) :=
  match n with
  | O => Done []
  | S n' =>
      x ← orThrow (rd off);
      rest ← readTable rd (wrap (off + stride)) stride n';
      Done (x :: rest)
  end.

(** [namedSection[name] = &h] for each header [h], in order. *)
Fixpoint nameSections (rd : Reader) (sshdr : Elf_Shdr) (hs : list Elf_Shdr) (i : nat)
         (m : gmap string nat) : Outcome (gmap string nat) :=
  match hs with
  | [] => Done m
  | h :: rest =>
      nm ← orThrow (readString rd (wrap (sh_offset sshdr + sh_name h)));
      nameSections rd sshdr rest (S i) (<[nm := i]> m)
  end.

Definition with_hash (obj : ElfObject) (h : option ElfSymHash) : ElfObject :=
  mkElfObject (name obj) (io obj) (elfHeader obj) (programHeaders obj) (sectionHeaders obj)
              (namedSection obj) h (debugLoaded obj) (debug obj).

Definition with_debug (obj : ElfObject) (loaded : bool) (d : option ElfObject) : ElfObject :=
  mkElfObject (name obj) (io obj) (elfHeader obj) (programHeaders obj) (sectionHeaders obj)
              (namedSection obj) (hash obj) loaded d.

(** [ElfObject::init]; [name_] is the name the constructor stored. *)
Definition init (io_ : Reader) (name_ : string) : Outcome ElfObject :=
  hdr ← orThrow (readEhdr io_ 0);
  (* Validate the ELF header *)
  if false && (negb (IS_ELF hdr) || negb (ident hdr EI_VERSION =? EV_CURRENT))
  then Throws (NotElf (describe io_ +:+ ": content is not an ELF image"))
  else
    phdrs ← readTable (readPhdr io_) (e_phoff hdr) (e_phentsize hdr) (Z.to_nat (e_phnum hdr));
    shdrs ← readTable (readShdr io_) (e_shoff hdr) (e_shentsize hdr) (Z.to_nat (e_shnum hdr));
    if negb (e_shstrndx hdr =? SHN_UNDEF) then
      sshdr ← index shdrs (e_shstrndx hdr);
      named ← nameSections io_ sshdr shdrs 0 ∅;
      let obj := mkElfObject name_ io_ hdr phdrs shdrs named None false None in
      let tab := getSection obj ".hash" SHT_HASH in
      match sec_shdr tab with
      | Some _ => h ← ElfSymHash_new tab; Done (with_hash obj (Some h))
      | None => Done obj
      end
    else
      Done (mkElfObject name_ io_ hdr phdrs shdrs ∅ None false None).

(** [ElfObject::ElfObject(shared_ptr<Reader>)]. *)
Definition ElfObject_of_reader (io_ : Reader) : Outcome ElfObject :=
  init io_ (describe io_).

(** [ElfObject::ElfObject(string)]: [fs] is the file system as
    [FileReader] sees it; a file that cannot be opened throws. *)
Definition ElfObject_of_file (fs : string -> option Reader) (name_ : string)
  : Outcome ElfObject :=
  io_ ← orThrow (fs name_);
  init io_ name_.

(** The statements of [getDebug] behind its leading [return 0;]:
    [dirname] is the helper of util.cc. *)
Definition getDebug_lookup (fs : string -> option Reader) (dirname : string -> string)
           (obj : ElfObject) : Outcome (option ElfObject * ElfObject) :=
  if negb (debugLoaded obj) then
    let obj := with_debug obj true (debug obj) in
    let oldname := describe (io obj) in
    let hdr := getSection obj ".gnu_debuglink" SHT_PROGBITS in
    match sec_shdr hdr with
    | None => Done (None, obj)
    | Some _ =>
        shdr ← shdrOf hdr;
        link ← orThrow (readString (io obj) (sh_offset shdr));
        let dir := dirname oldname in
        let name_ := ("/usr/lib/debug" +:+ dir +:+ "/" +:+ link)%string in
        match ElfObject_of_file fs name_ with
        | Done d => Done (Some d, with_debug obj true (Some d))
        | Throws _ => Done (None, obj)
        | Undefined u => Undefined u
        end
    end
  else Done (debug obj, obj).

End Elf.

(** ** canal: the vtable scanner *)

Module Canal.

Import Word Elf.

(** *** Glob matching

    [globmatchR] walks two [char] pointers.  A pointer is modelled by
    the bytes that memory holds from it onwards, terminators included,
    up to the end of what can be read; dereferencing a pointer with no
    byte left is [ReadPastEnd]. *)

Definition NUL : ascii := "000"%char.

Fixpoint globmatchR (pattern name : list ascii) {struct pattern} : Outcome bool :=
  match pattern with
  | [] => Undefined ReadPastEnd
  | pc :: pattern' =>
      if Ascii.eqb pc "*" then
        (* for (;;) { ++name; if (globmatchR(pattern + 1, name)) return 1;
                      if ( *name == 0) return 0; } *)
        (fix star (name : list ascii) : Outcome bool :=
           match name with
           | [] => Undefined ReadPastEnd
           | _ :: name' =>
               match globmatchR pattern' name' with
               | Done true => Done true
               | Done false =>
                   match name' with
                   | [] => Undefined ReadPastEnd
                   | c :: _ => if Ascii.eqb c NUL then Done false else star name'
                   end
               | Throws e => Throws e
               | Undefined u => Undefined u
               end
           end) name
      else
        match name with
        | [] => Undefined ReadPastEnd
        | nc :: name' =>
            if negb (Ascii.eqb nc pc) then Done false
            else if Ascii.eqb pc NUL then Done true
            else globmatchR pattern' name'
        end
  end.

(** [std::string::c_str()]: the characters, the terminator, and then
    whatever the memory behind the terminator holds. *)
Definition c_str (s : string) (behind : list ascii) : list ascii :=
  list_ascii_of_string s ++ NUL :: behind.

(** [globmatch]; [behind] is the readable memory that follows the
    terminator of [name]. *)
Definition globmatch (pattern name : string) (behind : list ascii) : Outcome bool :=
  globmatchR (c_str pattern []) (c_str name behind).

(** *** The symbol list *)

Record ListedSymbol : Type := {
  sym : Elf_Sym;
  objbase : Z;
  objname : string;
  count : Z;
  name : string
}.

(** The constructor: [count(0)]. *)
Definition ListedSymbol_new (sym_ : Elf_Sym) (objbase_ : Z) (name_ object : string)
  : ListedSymbol :=
  {| sym := sym_; objbase := objbase_; objname := object; count := 0; name := name_ |}.

Definition memaddr (s : ListedSymbol) : Z := wrap (st_value (sym s) + objbase s).

(** [operator < (const ListedSymbol &, Elf_Off)]. *)
Definition lt_addr (s : ListedSymbol) (addr : Z) : bool :=
  wrap (memaddr s + st_size (sym s)) <? addr.

(** [std::lower_bound] on a random-access range: halve [len] until it
    is zero. *)
Fixpoint lower_bound_loop (fuel : nat) (l : list ListedSymbol) (first len : nat) (val : Z)
  : nat :=
  match fuel with
  | O => first
  | S fuel' =>
      match len with
      | O => first
      | _ =>
          let half := Nat.div2 len in
          let middle := (first + half)%nat in
          match nth_error l middle with
          | Some m =>
              if lt_addr m val
              then lower_bound_loop fuel' l (S middle) (len - half - 1)%nat val
              else lower_bound_loop fuel' l first half val
          | None => first
          end
      end
  end.

Definition lower_bound (l : list ListedSymbol) (val : Z) : nat :=
  lower_bound_loop (length l) l 0%nat (length l) val.

(** [std::sort] with a comparator, as an insertion sort; the order it
    leaves between entries the comparator does not separate is not
    relied upon below. *)
Fixpoint insertBy {A} (lt : A -> A -> bool) (x : A) (l : list A) : list A :=
  match l with
  | [] => [x]
  | y :: rest => if lt y x then y :: insertBy lt x rest else x :: l
  end.

Definition sortBy {A} (lt : A -> A -> bool) (l : list A) : list A :=
  fold_right (insertBy lt) [] l.

(** *** The sweep *)

Record Config : Type := {
  virtpatterns : list string;
  showaddrs : bool;
  verbose : Z;
  findRef : bool;
  minval : Z;
  maxval : Z;
  findstr : option string
}.

(** What is written to [cout]. *)
Inductive Output : Type :=
| PrintAddress (addr : Z)                        (* "0x" << hex << addr *)
| PrintHit (nm : string) (offset : Z) (addr : Z)  (* name " + " offset " " addr *)
| PrintCount (n : Z) (nm : string) (object : string).

Definition sizeof_pointer : Z := 8.

Definition hit (s : ListedSymbol) : ListedSymbol :=
  {| sym := sym s; objbase := objbase s; objname := objname s;
     count := wrap (count s + 1); name := name s |}.

(** The body of the loop over the words of a page: [loc] is the address
    of the page, [i] the index of the word in it, [p] its value. *)
Definition scanWord (cfg : Config) (loc i p : Z) (st : list ListedSymbol * list Output)
  : list ListedSymbol * list Output :=
  let '(listed, out) := st in
  if findRef cfg then
    if (p >=? minval cfg) && (p <? maxval cfg) && (p mod 4 =? 0)
    then (listed, out ++ [PrintAddress loc])
    else st
  else
    let found := lower_bound listed p in
    match nth_error listed found with
    | Some f =>
        if (memaddr f <=? p) && (wrap (memaddr f + st_size (sym f)) >? p)
        then (alter hit found listed,
              if showaddrs cfg
              then out ++ [PrintHit (name f) (wrap (p - memaddr f))
                                    (wrap (loc + i * sizeof_pointer))]
              else out)
        else st
    | None => st
    end.

Fixpoint scanWords (cfg : Config) (loc i : Z) (words : list Z)
         (st : list ListedSymbol * list Output) : list ListedSymbol * list Output :=
  match words with
  | [] => st
  | p :: rest => scanWords cfg loc (i + 1) rest (scanWord cfg loc i p st)
  end.

(** [Process] (process.cc) as the scanner uses it: the loaded objects
    and the address-space reader.  [readPage loc] is
    [io->readObj(loc, page.chars, pagesize)] seen as pointers;
    [read loc n] is [io->read(loc, n, buf)], the bytes it delivered. *)
Record LoadedObject : Type := {
  reloc : Z;
  object : ElfObject
}.

Record Process : Type := {
  objects : list LoadedObject;
  readPage : Z -> option (list Z);
  read : Z -> Z -> option (list ascii)
}.

(** The page loop of one segment.  [loc += pagesize] wraps, so the loop
    is bounded by [fuel]; [None]: not finished within [fuel] pages. *)
Fixpoint scanPages (fuel : nat) (pagesize : Z) (proc : Process) (cfg : Config)
         (limit loc : Z) (st : list ListedSymbol * list Output)
  : option (Outcome (list ListedSymbol * list Output)) :=
  match fuel with
  | O => None
  | S fuel' =>
      if loc <? limit then
        match readPage proc loc with
        | None => Some (Throws ReadFailed)
        | Some words =>
            scanPages fuel' pagesize proc cfg limit (wrap (loc + pagesize))
                      (scanWords cfg loc 0 words st)
        end
      else Some (Done st)
  end.

(** The byte loop of the literal-string search; [strbuf] keeps what a
    short read did not overwrite. *)
Fixpoint scanString (fuel : nat) (proc : Process) (needle : list ascii) (limit loc : Z)
         (strbuf : list ascii) (out : list Output)
  : option (Outcome (list ascii * list Output)) :=
  match fuel with
  | O => None
  | S fuel' =>
      if loc <? limit then
        match read proc loc (Z.of_nat (length needle)) with
        | None => Some (Throws ReadFailed)
        | Some got =>
            let strbuf := firstn (length needle) (got ++ skipn (length got) strbuf) in
            let out :=
              if decide (strbuf = needle) then out ++ [PrintAddress loc] else out in
            scanString fuel' proc needle limit (wrap (loc + 1)) strbuf out
        end
      else Some (Done (strbuf, out))
  end.

(** *** The program *)

(** What the program takes from its host: the file system behind
    [FileReader], [getpagesize()], the process layer ([CoreProcess] and
    [load], process.cc), the memory behind the terminator of a name
    handed to [globmatch], and the content of a new [char] array. *)
Record Host : Type := {
  fs : string -> option Reader;
  pagesize : Z;
  CoreProcess : option ElfObject -> ElfObject -> Outcome Process;
  load : Process -> Outcome Process;
  behind : string -> list ascii;
  fresh : Z -> list ascii
}.

(** One result of [getopt(argc, argv, "vhsp:f:e:S:")], with [optarg]
    (for [-f] and [-e]: [strtoll(optarg, 0, 0)]).  [Opt_other] is the
    ['?'] of an option outside the list: the [switch] has no case for it. *)
Inductive Opt : Type :=
| Opt_p (optarg : string)
| Opt_s
| Opt_v
| Opt_h
| Opt_S (optarg : string)
| Opt_f (value : Z)
| Opt_e (value : Z)
| Opt_other.

Definition set_patterns (c : Config) (ps : list string) : Config :=
  {| virtpatterns := ps; showaddrs := showaddrs c; verbose := verbose c;
     findRef := findRef c; minval := minval c; maxval := maxval c; findstr := findstr c |}.

(** The option loop: [Done None] is the [return 0] of [-h]. *)
Fixpoint parseOptions (opts : list Opt) (c : Config) : Outcome (option Config) :=
  match opts with
  | [] => Done (Some c)
  | o :: rest =>
      match o with
      | Opt_p optarg => parseOptions rest (set_patterns c (virtpatterns c ++ [optarg]))
      | Opt_s =>
          parseOptions rest
            {| virtpatterns := virtpatterns c; showaddrs := true; verbose := verbose c;
               findRef := findRef c; minval := minval c; maxval := maxval c;
               findstr := findstr c |}
      | Opt_v =>
          parseOptions rest
            {| virtpatterns := virtpatterns c; showaddrs := showaddrs c;
               verbose := verbose c + 1;
               findRef := findRef c; minval := minval c; maxval := maxval c;
               findstr := findstr c |}
      | Opt_h => Done None
      | Opt_S optarg =>
          parseOptions rest
            {| virtpatterns := virtpatterns c; showaddrs := showaddrs c; verbose := verbose c;
               findRef := findRef c; minval := minval c; maxval := maxval c;
               findstr := Some optarg |}
      | Opt_f value =>
          parseOptions rest
            {| virtpatterns := virtpatterns c; showaddrs := showaddrs c; verbose := verbose c;
               findRef := true; minval := wrap value; maxval := wrap value;
               findstr := findstr c |}
      | Opt_e value =>
          if negb (findRef c) then Undefined Abort
          else
            parseOptions rest
              {| virtpatterns := virtpatterns c; showaddrs := showaddrs c; verbose := verbose c;
                 findRef := findRef c; minval := minval c; maxval := wrap value;
                 findstr := findstr c |}
      | Opt_other => parseOptions rest c
      end
  end.

(** The locals before the option loop ([minval] and [maxval] are not
    initialised in the source and are read only once [-f] has set them). *)
Definition initialConfig : Config :=
  {| virtpatterns := []; showaddrs := false; verbose := 0;
     findRef := false; minval := 0; maxval := 0; findstr := None |}.

Definition default_pattern : string := "_ZTV*".

(** The loop over [virtpatterns] for one symbol. *)
Fixpoint matchesAny (patterns : list string) (nm : string) (mem : list ascii) : Outcome bool :=
  match patterns with
  | [] => Done false
  | virtpattern :: rest =>
      m ← globmatch virtpattern nm mem;
      if (m : bool) then Done true else matchesAny rest nm mem
  end.

(** The loop over the symbols of one table of one loaded object. *)
Fixpoint listSymbols (h : Host) (c : Config) (loaded : LoadedObject)
         (table : list (Outcome (Elf_Sym * string))) (listed : list ListedSymbol)
  : Outcome (list ListedSymbol) :=
  match table with
  | [] => Done listed
  | s :: rest =>
      s ← s;
      m ← matchesAny (virtpatterns c) (snd s) (behind h (snd s));
      listSymbols h c loaded rest
        (if (m : bool)
         then listed ++ [ListedSymbol_new (fst s) (reloc loaded) (snd s)
                                          (describe (io (object loaded)))]
         else listed)
  end.

Fixpoint listTables (h : Host) (c : Config) (loaded : LoadedObject) (tables : list string)
         (listed : list ListedSymbol) : Outcome (list ListedSymbol) :=
  match tables with
  | [] => Done listed
  | nm :: rest =>
      ss ← getSymbols (object loaded) nm;
      listed ← listSymbols h c loaded (symbolsIn ss) listed;
      listTables h c loaded rest listed
  end.

Fixpoint listObjects (h : Host) (c : Config) (objs : list LoadedObject)
         (listed : list ListedSymbol) : Outcome (list ListedSymbol) :=
  match objs with
  | [] => Done listed
  | loaded :: rest =>
      listed ← listTables h c loaded [".dynsym"; ".symtab"]%string listed;
      listObjects h c rest listed
  end.

(** The state the segment loop carries. *)
Record Sweep : Type := {
  listed : list ListedSymbol;
  out : list Output;
  strbuf : list ascii
}.

(** The body of the loop over the segments of the core. *)
Definition scanSegment (fuel : nat) (h : Host) (proc : Process) (c : Config)
           (hdr : Elf_Phdr) (st : Sweep) : option (Outcome Sweep) :=
  if negb (p_type hdr =? PT_LOAD) then Some (Done st)
  else
    match findstr c with
    | Some needle =>
        let findstrlen := Z.of_nat (String.length needle) in
        match scanString fuel proc (list_ascii_of_string needle)
                         (wrap (p_vaddr hdr + p_filesz hdr - findstrlen)) (p_vaddr hdr)
                         (strbuf st) (out st) with
        | None => None
        | Some (Done (buf, o)) => Some (Done {| listed := listed st; out := o; strbuf := buf |})
        | Some (Throws e) => Some (Throws e)
        | Some (Undefined u) => Some (Undefined u)
        end
    | None =>
        if pagesize h =? 0 then Some (Undefined DivByZero)
        else if negb (p_vaddr hdr mod pagesize h =? 0) then Some (Undefined Abort)
        else
          match scanPages fuel (pagesize h) proc c (wrap (p_vaddr hdr + p_filesz hdr))
                          (p_vaddr hdr) (listed st, out st) with
          | None => None
          | Some (Done (l, o)) => Some (Done {| listed := l; out := o; strbuf := strbuf st |})
          | Some (Throws e) => Some (Throws e)
          | Some (Undefined u) => Some (Undefined u)
          end
    end.

Fixpoint scanSegments (fuel : nat) (h : Host) (proc : Process) (c : Config)
         (segments : list Elf_Phdr) (st : Sweep) : option (Outcome Sweep) :=
  match segments with
  | [] => Some (Done st)
  | hdr :: rest =>
      match scanSegment fuel h proc c hdr st with
      | Some (Done st') => scanSegments fuel h proc c rest st'
      | other => other
      end
  end.

(** The closing report: rows by count, largest first, zero counts left out. *)
Definition report (l : list ListedSymbol) : list Output :=
  List.map (fun i => PrintCount (count i) (name i) (objname i))
           (List.filter (fun i => negb (count i =? 0))
                        (sortBy (fun l r => count l >? count r) l)).

(** [mainExcept]: [opts] is what the [getopt] loop meets, [args] the
    arguments from [optind] on.  The result of a run that returns is the
    returned [int] and what was written to [cout]. *)
Definition mainExcept (fuel : nat) (h : Host) (opts : list Opt) (args : list string)
  : option (Outcome (Z * list Output)) :=
  match parseOptions opts initialConfig with
  | Throws e => Some (Throws e)
  | Undefined u => Some (Undefined u)
  | Done None => Some (Done (0, []))
  | Done (Some c) =>
      let opened : Outcome (option ElfObject * list string) :=
        if 2 <=? Z.of_nat (length args) then
          match args with
          | a :: rest => exec ← ElfObject_of_file (fs h) a; Done (Some exec, rest)
          | [] => Done (None, args)
          end
        else Done (None, args) in
      let started : Outcome (option (ElfObject * Process)) :=
        '(exec, args) ← opened;
        match args with
        | a :: _ =>
            core ← ElfObject_of_file (fs h) a;
            process ← CoreProcess h exec core;
            Done (Some (core, process))
        | [] => Done None
        end in
      let prepared : Outcome (ElfObject * Process * Config * list ListedSymbol) :=
        started ← started;
        match started with
        | None => Undefined NullDeref
        | Some (core, process) =>
            process ← load h process;
            let c := if (length (virtpatterns c) =? 0)%nat
                     then set_patterns c (virtpatterns c ++ [default_pattern]) else c in
            l ← listObjects h c (objects process) [];
            Done (core, process, c, sortBy (fun l r => memaddr l <? memaddr r) l)
        end in
      match prepared with
      | Throws e => Some (Throws e)
      | Undefined u => Some (Undefined u)
      | Done (core, process, c, l) =>
          let strbuf0 :=
            match findstr c with
            | Some needle => fresh h (Z.of_nat (String.length needle))
            | None => []
            end in
          match scanSegments fuel h process c (getSegments core)
                             {| listed := l; out := []; strbuf := strbuf0 |} with
          | None => None
          | Some (Throws e) => Some (Throws e)
          | Some (Undefined u) => Some (Undefined u)
          | Some (Done st) => Some (Done (0, out st ++ report (listed st)))
          end
      end
  end.

(** [main]: the [int] it returns, or the fault that ends the program
    without a return. *)
Definition main (fuel : nat) (h : Host) (opts : list Opt) (args : list string)
  : option (Outcome Z) :=
  match mainExcept fuel h opts args with
  | None => None
  | Some (Done r) => Some (Done (fst r))
  | Some (Throws ex) => Some (Done (-1))
  | Some (Undefined u) => Some (Undefined u)
  end.

(** The exit status the parent sees for a returned [int]. *)
Definition exit_status (r : Z) : Z := r mod 256.

End Canal.

(** ** Sample images

    Small ELF images given by what a reader delivers at each offset; the
    objects used in the examples are obtained from them by [init]. *)

Module Fixtures.

Import Word Elf Canal.

Definition at_offset {A} (tbl : list (Z * A)) (off : Z) : option A :=
  match List.find (fun e => fst e =? off) tbl with
  | Some e => Some (snd e)
  | None => None
  end.

(** A table of records laid out from [off] with the given stride. *)
Fixpoint laid_out {A} (off stride : Z) (l : list A) : list (Z * A) :=
  match l with
  | [] => []
  | x :: rest => (off, x) :: laid_out (off + stride) stride rest
  end.

Definition image (descr : string) (hdr : Elf_Ehdr) (phdrs : list Elf_Phdr)
           (shdrs : list Elf_Shdr) (symbols : list (Z * Elf_Sym))
           (words : list (Z * list Z)) (strs : list (Z * string)) : Reader :=
  {| describe := descr;
     readEhdr := fun off => if off =? 0 then Some hdr else None;
     readPhdr := at_offset (laid_out (e_phoff hdr) (e_phentsize hdr) phdrs);
     readShdr := at_offset (laid_out (e_shoff hdr) (e_shentsize hdr) shdrs);
     readSym := at_offset symbols;
     readWords := fun off n =>
       match at_offset words off with
       | Some ws => if Z.of_nat (length ws) =? n then Some ws else None
       | None => None
       end;
     readString := at_offset strs |}.

Definition elf_ident : list Z := [127; 69; 76; 70; 2; 1; 1; 0; 0; 0; 0; 0; 0; 0; 0; 0].

Definition header (ident_ : list Z) (phnum shnum shstrndx : Z) : Elf_Ehdr :=
  {| e_ident := ident_; e_phoff := 64; e_shoff := 1000; e_phentsize := 56;
     e_phnum := phnum; e_shentsize := 64; e_shnum := shnum; e_shstrndx := shstrndx |}.

(** A file that is no ELF image at all: its first bytes are "MZ". *)
Definition pe_header : Elf_Ehdr :=
  header [77; 90; 144; 0; 3; 0; 0; 0; 4; 0; 0; 0; 255; 255; 0; 0] 0 0 0.

Definition notElf : Reader := image "setup.exe" pe_header [] [] [] [] [].

(** A header whose [e_shstrndx] names a section that does not exist. *)
Definition badShstrndx : Reader :=
  image "bad.o" (header elf_ident 0 0 1) [] [] [] [] [].

(** A shared object: [.text], [.dynsym] with [foo], its alias [foo_alias]
    and [bar], [.dynstr], [.hash] (two buckets), [.shstrtab] and
    [.gnu_debuglink]. *)
Definition sample_sections : list Elf_Shdr :=
  [ {| sh_name := 0; sh_type := 0; sh_flags := 0; sh_offset := 0; sh_size := 0; sh_link := 0 |};
    {| sh_name := 1; sh_type := 1; sh_flags := 6; sh_offset := 4096; sh_size := 48; sh_link := 0 |};
    {| sh_name := 7; sh_type := 11; sh_flags := 2; sh_offset := 4000; sh_size := 96; sh_link := 3 |};
    {| sh_name := 15; sh_type := 3; sh_flags := 2; sh_offset := 3000; sh_size := 19; sh_link := 0 |};
    {| sh_name := 23; sh_type := 5; sh_flags := 2; sh_offset := 5000; sh_size := 32; sh_link := 2 |};
    {| sh_name := 29; sh_type := 3; sh_flags := 0; sh_offset := 2000; sh_size := 54; sh_link := 0 |};
    {| sh_name := 39; sh_type := 1; sh_flags := 0; sh_offset := 6000; sh_size := 20; sh_link := 0 |} ].

Definition sample_section_names : list (Z * string) :=
  [ (2000, EmptyString); (2001, ".text"); (2007, ".dynsym"); (2015, ".dynstr"); (2023, ".hash");
    (2029, ".shstrtab"); (2039, ".gnu_debuglink") ]%string.

Definition null_sym : Elf_Sym :=
  {| st_name := 0; st_info := 0; st_shndx := 0; st_value := 0; st_size := 0 |}.
Definition foo_sym : Elf_Sym :=
  {| st_name := 1; st_info := 18; st_shndx := 1; st_value := 4096; st_size := 16 |}.
Definition foo_alias_sym : Elf_Sym :=
  {| st_name := 5; st_info := 18; st_shndx := 1; st_value := 4096; st_size := 16 |}.
Definition bar_sym : Elf_Sym :=
  {| st_name := 15; st_info := 18; st_shndx := 1; st_value := 4112; st_size := 32 |}.

Definition sample_dynsym : list Elf_Sym := [null_sym; foo_sym; foo_alias_sym; bar_sym].

Definition sample_dynstr : list (Z * string) :=
  [ (3000, EmptyString); (3001, "foo"); (3005, "foo_alias"); (3015, "bar") ]%string.

Definition sample_load : Elf_Phdr :=
  {| p_type := 1; p_offset := 4096; p_vaddr := 4096; p_filesz := 48; p_memsz := 64 |}.

Definition sample_hash_words : list Z := [2; 4; 3; 2; 0; 0; 1; 0].

Definition sample (phdrs : list Elf_Phdr) : Reader :=
  image "/usr/lib/libsample.so" (header elf_ident (Z.of_nat (length phdrs)) 7 5)
        phdrs sample_sections (laid_out 4000 24 sample_dynsym)
        [(5000, sample_hash_words)]
        (sample_section_names ++ sample_dynstr ++ [(6000, "libsample.so.debug"%string)]).

(** The separate debug file of the sample, an image without sections. *)
Definition companion : Reader :=
  image "/usr/lib/debug/usr/lib/libsample.so.debug" (header elf_ident 0 0 0) [] [] [] [] [].

Definition sample_fs (path : string) : option Reader :=
  if String.eqb path "/usr/lib/libsample.so" then Some (sample [sample_load])
  else if String.eqb path "/usr/lib/debug/usr/lib/libsample.so.debug" then Some companion
  else None.

(** [dirname] on the one path the examples hand to it. *)
Definition sample_dirname (path : string) : string := "/usr/lib".

(** The objects [init] builds from the sample: the shared object and the
    same file without program headers (a relocatable object). *)
Definition parsed (rd : Reader) : ElfObject :=
  match ElfObject_of_reader rd with
  | Done obj => obj
  | _ => mkElfObject EmptyString rd (header [] 0 0 0) [] [] ∅ None false None
  end.

Definition sampleObject : ElfObject := parsed (sample [sample_load]).
Definition relocatableObject : ElfObject := parsed (sample []).

(** *** The scanner's inputs *)

(** Two vtables laid out back to back in an object loaded at 0x400000:
    [_ZTV1A] at [0x402000, 0x402020) and [_ZTV1B] at [0x402020, 0x402040). *)
Definition vtableA : ListedSymbol :=
  ListedSymbol_new {| st_name := 1; st_info := 17; st_shndx := 1; st_value := 8192; st_size := 32 |}
                   4194304 "_ZTV1A" "/usr/lib/libsample.so".
Definition vtableB : ListedSymbol :=
  ListedSymbol_new {| st_name := 8; st_info := 17; st_shndx := 1; st_value := 8224; st_size := 32 |}
                   4194304 "_ZTV1B" "/usr/lib/libsample.so".

Definition vtables : list ListedSymbol := [vtableA; vtableB].

(** A [PT_LOAD] segment of the core: one page at 0x10000. *)
Definition heap_segment : Elf_Phdr :=
  {| p_type := 1; p_offset := 4096; p_vaddr := 65536; p_filesz := 4096; p_memsz := 4096 |}.

(** A process whose page at 0x10000 holds [words], zero-filled to 512
    pointers. *)
Definition process_with (words : list Z) : Process :=
  {| objects := [];
     readPage := fun loc =>
       if loc =? 65536 then Some (words ++ repeat 0 (512 - length words)) else None;
     read := fun _ _ => None |}.

(** [-f 0x1000 -e 0x2000]. *)
Definition refSearch : Config :=
  {| virtpatterns := ["_ZTV*"%string]; showaddrs := false; verbose := 0;
     findRef := true; minval := 4096; maxval := 8192; findstr := None |}.

(** No option given. *)
Definition vtableScan : Config :=
  {| virtpatterns := ["_ZTV*"%string]; showaddrs := false; verbose := 0;
     findRef := false; minval := 0; maxval := 0; findstr := None |}.

(** A file too short to hold an ELF header. *)
Definition truncated : Reader :=
  {| describe := "core.1234"; readEhdr := fun _ => None; readPhdr := fun _ => None;
     readShdr := fun _ => None; readSym := fun _ => None; readWords := fun _ _ => None;
     readString := fun _ => None |}.

(** A host with the sample library as [a.out], the truncated file as
    [core.1234], a core without segments as [core.1], and a process
    layer that loads nothing. *)
Definition sample_host : Host :=
  {| fs := fun path =>
       if String.eqb path "core.1234" then Some truncated
       else if String.eqb path "core.1" then Some companion
       else if String.eqb path "a.out" then Some (sample [sample_load])
       else None;
     pagesize := 4096;
     CoreProcess := fun _ _ => Done (process_with []);
     load := fun p => Done p;
     behind := fun _ => [];
     fresh := fun n => repeat "000"%char (Z.to_nat n) |}.

(** The hash accelerator, the [.dynsym] section and the entries of the
    sample object. *)
Definition sample_hash : ElfSymHash :=
  {| hashSection := 4;
     syms := {| sh_name := 7; sh_type := 11; sh_flags := 2; sh_offset := 4000;
                sh_size := 96; sh_link := 3 |};
     data := sample_hash_words; nbucket := 2; nchain := 4; strings := 3000 |}.

Definition sample_dynsym_section : SymbolSection :=
  {| sym_io := sample [sample_load]; sym_begin := 4000; sym_count := 4; stroff := 3000 |}.

Definition sample_entries : list (Elf_Sym * string) :=
  [(null_sym, EmptyString); (foo_sym, "foo"); (foo_alias_sym, "foo_alias"); (bar_sym, "bar")]%string.

End Fixtures.



(** ** Notions used in the statements *)

Module Notions.

Import Word Elf Canal.

(** The only exception a computation can end in is the reader's. *)
Definition throwsOnlyReadFailed {A} (o : Outcome A) : Prop :=
  forall e, o = Throws e -> e = ReadFailed.

(** All the values of a sequence of reads, when each of them succeeds. *)
Fixpoint collect {A} (l : list (Outcome A)) : Outcome (list A) :=
  match l with
  | [] => Done []
  | x :: rest => a ← x; r ← collect rest; Done (a :: r)
  end.

(** The entries of the table [nm] as [findSymbolByAddress] walks them: a
    table that is missing or of type [SHT_NOBITS] contributes none. *)
Definition tableEntries (obj : ElfObject) (nm : string) : Outcome (list (Elf_Sym * string)) :=
  let symSection := getSection obj nm SHT_NULL in
  match sec_shdr symSection with
  | None => Done []
  | Some _ =>
      shdr ← shdrOf symSection;
      if sh_type shdr =? SHT_NOBITS then Done []
      else ss ← SymbolSection_new symSection; collect (symbolsIn ss)
  end.

Fixpoint entriesOf (obj : ElfObject) (names : list string) : Outcome (list (Elf_Sym * string)) :=
  match names with
  | [] => Done []
  | nm :: rest => a ← tableEntries obj nm; b ← entriesOf obj rest; Done (a ++ b)
  end.

(** The symbols of the image in the order of the search: [.symtab], then
    [.dynsym]. *)
Definition scannedSymbols (obj : ElfObject) : Outcome (list (Elf_Sym * string)) :=
  entriesOf obj sectionNames.

(** The symbol lies in a section of the image that has [SHF_ALLOC]. *)
Definition inAllocatedSection (obj : ElfObject) (s : Elf_Sym) : bool :=
  (st_shndx s <? Z.of_nat (length (sectionHeaders obj))) &&
  match nth_error (sectionHeaders obj) (Z.to_nat (st_shndx s)) with
  | Some shdr => negb (Z.land (sh_flags shdr) SHF_ALLOC =? 0)
  | None => false
  end.

(** An exact containment match for [addr] and [type]: allocated section,
    matching kind (or the wildcard), non-zero size, and [addr] within
    [st_value, st_value + st_size) as the code computes it. *)
Definition exactMatch (obj : ElfObject) (addr type : Z) (c : Elf_Sym * string) : bool :=
  inAllocatedSection obj (fst c) &&
  ((type =? STT_NOTYPE) || (ELF_ST_TYPE (st_info (fst c)) =? type)) &&
  (st_value (fst c) <=? addr) &&
  negb (st_size (fst c) =? 0) &&
  (wrap (st_size (fst c) + st_value (fst c)) >? addr).

(** A zero byte occurs in the memory [mem]. *)
Definition has_nul (mem : list ascii) : bool := existsb (Ascii.eqb NUL) mem.

(** The words of a page that the address-range search accepts. *)
Definition inSearchedRange (c : Config) (p : Z) : bool :=
  (p >=? minval c) && (p <? maxval c) && (p mod 4 =? 0).

(** The candidate of the specification for a word [w]: the greatest
    entry of the address-sorted list whose address is at most [w], as an
    index into the list. *)
Fixpoint spec_candidate_from (i : nat) (l : list ListedSymbol) (w : Z) (best : option nat)
  : option nat :=
  match l with
  | [] => best
  | s :: rest =>
      spec_candidate_from (S i) rest w (if memaddr s <=? w then Some i else best)
  end.

Definition spec_candidate (l : list ListedSymbol) (w : Z) : option nat :=
  spec_candidate_from 0 l w None.

(** Counting a word as the specification words it: a hit, for the
    candidate and for no other entry, when its address plus its size
    exceeds the word. *)
Definition spec_countWord (l : list ListedSymbol) (w : Z) : list ListedSymbol :=
  match spec_candidate l w with
  | Some i =>
      match nth_error l i with
      | Some s => if wrap (memaddr s + st_size (sym s)) >? w then alter hit i l else l
      | None => l
      end
  | None => l
  end.

(** *** Well-formed hash sections

    [tab] is the symbol table the hash section indexes, [ss] its
    [SymbolSection]. *)

(** Following the chain from [i] meets [j] within [fuel] steps. *)
Fixpoint chainReaches (fuel : nat) (h : ElfSymHash) (i j : Z) : bool :=
  match fuel with
  | O => false
  | S fuel' =>
      if i =? STN_UNDEF then false
      else if i =? j then true
      else
        match chains h i with
        | Done i' => chainReaches fuel' h i' j
        | _ => false
        end
  end.

(** The chain entry of symbol [i] is a symbol index of the table. *)
Definition chainInTable (h : ElfSymHash) (n : nat) (i : nat) : bool :=
  match chains h (Z.of_nat i) with
  | Done i' => (0 <=? i') && (i' <? Z.of_nat n)
  | _ => false
  end.

(** Symbol [i] is on the chain of the bucket its name hashes to. *)
Definition symbolOnItsChain (h : ElfSymHash) (tab : list (Elf_Sym * string)) (i : nat) : bool :=
  match nth_error tab i with
  | Some (_, nm) =>
      match buckets h (elf_hash nm mod nbucket h) with
      | Done b => (0 <=? b) && (b <? Z.of_nat (length tab)) &&
                  chainReaches (length tab) h b (Z.of_nat i)
      | _ => false
      end
  | None => false
  end.

(** The hash section refers to the table [ss], has a bucket, its chain
    stays within the table, and every symbol but the null symbol of
    index 0 is on the chain of its bucket. *)
Definition hashWellFormed (h : ElfSymHash) (ss : SymbolSection) (tab : list (Elf_Sym * string))
  : bool :=
  (sh_offset (syms h) =? sym_begin ss) && (strings h =? stroff ss) &&
  (0 <? nbucket h) &&
  forallb (chainInTable h (length tab)) (seq 0 (length tab)) &&
  forallb (symbolOnItsChain h tab) (seq 1 (length tab - 1)).

End Notions.

(** ** Notions used in the further properties *)

Module Further.

Import Word Elf Canal Fixtures Notions.

(** A [PT_LOAD] header whose half-open range, as the code computes it,
    holds [a]. *)
Definition Covers (a : Z) (hdr : Elf_Phdr) : Prop :=
  p_type hdr = PT_LOAD /\ p_vaddr hdr <= a < wrap (p_vaddr hdr + p_memsz hdr).

(** The offset of entry [k] of a table that starts at [off]: [off]
    itself, then [off += stride] in [size_t] arithmetic. *)
Definition tableOffset (off stride : Z) (k : nat) : Z :=
  match k with
  | O => off
  | S _ => wrap (off + Z.of_nat k * stride)
  end.

(** The name the reader delivers for section [j] of a parsed object:
    the string at [sh_offset] of the section [e_shstrndx] plus the
    [sh_name] of section [j]. *)
Definition sectionName (obj : ElfObject) (j : nat) : option string :=
  match nth_error (sectionHeaders obj) (Z.to_nat (e_shstrndx (elfHeader obj))),
        nth_error (sectionHeaders obj) j with
  | Some sshdr, Some h => readString (io obj) (wrap (sh_offset sshdr + sh_name h))
  | _, _ => None
  end.

(** The sample with two program headers, in either order. *)
Definition sample_data_load : Elf_Phdr :=
  {| p_type := 1; p_offset := 8192; p_vaddr := 2105344; p_filesz := 16; p_memsz := 4096 |}.

Definition twoSegments : ElfObject := parsed (sample [sample_load; sample_data_load]).
Definition twoSegmentsSwapped : ElfObject := parsed (sample [sample_data_load; sample_load]).

(** An image without a section-name table: [e_shstrndx] is [SHN_UNDEF]. *)
Definition bareObject : ElfObject := parsed companion.

(** The sample with a [.hash] section of a single word. *)
Definition shortHash_sections : list Elf_Shdr :=
  [ {| sh_name := 0; sh_type := 0; sh_flags := 0; sh_offset := 0; sh_size := 0; sh_link := 0 |};
    {| sh_name := 1; sh_type := 1; sh_flags := 6; sh_offset := 4096; sh_size := 48; sh_link := 0 |};
    {| sh_name := 7; sh_type := 11; sh_flags := 2; sh_offset := 4000; sh_size := 96; sh_link := 3 |};
    {| sh_name := 15; sh_type := 3; sh_flags := 2; sh_offset := 3000; sh_size := 19; sh_link := 0 |};
    {| sh_name := 23; sh_type := 5; sh_flags := 2; sh_offset := 5000; sh_size := 4; sh_link := 2 |};
    {| sh_name := 29; sh_type := 3; sh_flags := 0; sh_offset := 2000; sh_size := 54; sh_link := 0 |} ].

Definition shortHash : Reader :=
  image "short.so" (header elf_ident 0 6 5) [] shortHash_sections
        (laid_out 4000 24 sample_dynsym) [(5000, [2])]
        (sample_section_names ++ sample_dynstr).

(** The object as [init] holds it when it reaches the [.hash] section. *)
Definition shortHashObject : ElfObject :=
  mkElfObject "short.so" shortHash (header elf_ident 0 6 5) [] shortHash_sections
              (<[".hash"%string := 4%nat]> ∅) None false None.

(** A hash table whose chain entry of symbol 1 is 1 itself. *)
Definition loopHash : ElfSymHash :=
  {| hashSection := 4;
     syms := {| sh_name := 7; sh_type := 11; sh_flags := 2; sh_offset := 4000;
                sh_size := 96; sh_link := 3 |};
     data := [1; 2; 1; 0; 1]; nbucket := 1; nchain := 2; strings := 3000 |}.

(** The entries a linear search of the table [table] of type [type]
    goes through: none when the section is missing or of another type. *)
Definition namedEntries (obj : ElfObject) (table : string) (type : Z)
  : Outcome (list (Elf_Sym * string)) :=
  let s := getSection obj table type in
  match sec_shdr s with
  | Some _ => ss ← SymbolSection_new s; collect (symbolsIn ss)
  | None => Done []
  end.

(** The entry bears the name [nm]. *)
Definition named (nm : string) (e : Elf_Sym * string) : bool := String.eqb nm (snd e).

(** The sample as a current linker writes it: the hash section is
    [.gnu.hash] of type [SHT_GNU_HASH], there is no [.hash]. *)
Definition gnuHash_sections : list Elf_Shdr :=
  [ {| sh_name := 0; sh_type := 0; sh_flags := 0; sh_offset := 0; sh_size := 0; sh_link := 0 |};
    {| sh_name := 1; sh_type := 1; sh_flags := 6; sh_offset := 4096; sh_size := 48; sh_link := 0 |};
    {| sh_name := 7; sh_type := 11; sh_flags := 2; sh_offset := 4000; sh_size := 96; sh_link := 3 |};
    {| sh_name := 15; sh_type := 3; sh_flags := 2; sh_offset := 3000; sh_size := 19; sh_link := 0 |};
    {| sh_name := 64; sh_type := 1879048182; sh_flags := 2; sh_offset := 5000; sh_size := 32;
       sh_link := 2 |};
    {| sh_name := 29; sh_type := 3; sh_flags := 0; sh_offset := 2000; sh_size := 74; sh_link := 0 |} ].

Definition gnuHash : Reader :=
  image "/usr/lib/libgnu.so" (header elf_ident 0 6 5) [] gnuHash_sections
        (laid_out 4000 24 sample_dynsym) []
        (sample_section_names ++ [(2064, ".gnu.hash"%string)] ++ sample_dynstr).

Definition gnuHashObject : ElfObject := parsed gnuHash.

(** A candidate of the search by address: allocated section, matching
    kind (or the wildcard), and [st_value] not above the address. *)
Definition isCandidate (obj : ElfObject) (addr type : Z) (c : Elf_Sym * string) : bool :=
  inAllocatedSection obj (fst c) &&
  ((type =? STT_NOTYPE) || (ELF_ST_TYPE (st_info (fst c)) =? type)) &&
  (st_value (fst c) <=? addr).

(** A candidate without a size. *)
Definition isStub (obj : ElfObject) (addr type : Z) (c : Elf_Sym * string) : bool :=
  isCandidate obj addr type c && (st_size (fst c) =? 0).

(** What an entry that is no exact match does to the search state. *)
Definition stubStep (obj : ElfObject) (addr type : Z) (st : AddrSearch)
           (c : Elf_Sym * string) : AddrSearch :=
  if isStub obj addr type c && (lowest st <? st_value (fst c))
  then {| lowest := st_value (fst c); held := Some c |}
  else st.

(** A stripped executable: [.dynsym] holds the null symbol and [_init],
    which has no size. *)
Definition init_sym : Elf_Sym :=
  {| st_name := 1; st_info := 18; st_shndx := 1; st_value := 4096; st_size := 0 |}.

Definition stripped : Reader :=
  image "/bin/stripped" (header elf_ident 0 6 5) []
        [ {| sh_name := 0; sh_type := 0; sh_flags := 0; sh_offset := 0; sh_size := 0; sh_link := 0 |};
          {| sh_name := 1; sh_type := 1; sh_flags := 6; sh_offset := 4096; sh_size := 4096;
             sh_link := 0 |};
          {| sh_name := 7; sh_type := 11; sh_flags := 2; sh_offset := 4000; sh_size := 48;
             sh_link := 3 |};
          {| sh_name := 15; sh_type := 3; sh_flags := 2; sh_offset := 3000; sh_size := 7;
             sh_link := 0 |};
          {| sh_name := 64; sh_type := 1879048182; sh_flags := 2; sh_offset := 5000;
             sh_size := 32; sh_link := 2 |};
          {| sh_name := 29; sh_type := 3; sh_flags := 0; sh_offset := 2000; sh_size := 74;
             sh_link := 0 |} ]
        (laid_out 4000 24 [null_sym; init_sym]) []
        (sample_section_names ++ [(2064, ".gnu.hash"%string)] ++
         [(3000, EmptyString); (3001, "_init"%string)]).

Definition strippedObject : ElfObject := parsed stripped.

(** What the state of the search by address satisfies at any point:
    [lowest] is never negative, and an entry is held exactly when
    [lowest] is above zero, which is then its [st_value]; the entry is a
    candidate without a size. *)
Definition searchInvariant (obj : ElfObject) (addr type : Z) (st : AddrSearch) : Prop :=
  0 <= lowest st /\
  match held st with
  | None => lowest st = 0
  | Some c =>
      0 < lowest st /\ lowest st = st_value (fst c) /\
      isStub obj addr type c = true
  end.

(** The characters of a pattern or name as they may occur in a C string
    that is matched literally: no terminator inside, and (for [plain]) no
    wildcard. *)
Definition nulFree (s : string) : Prop := ~ In NUL (list_ascii_of_string s).

Definition plain (s : string) : Prop :=
  ~ In NUL (list_ascii_of_string s) /\ ~ In "*"%char (list_ascii_of_string s).

(** What of a listed symbol the sweep never touches. *)
Definition identity (s : ListedSymbol) : Elf_Sym * Z * string * string :=
  (sym s, objbase s, objname s, name s).

(** The end of the range of a listed symbol, as the code computes it. *)
Definition endaddr (s : ListedSymbol) : Z := wrap (memaddr s + st_size (sym s)).

(** The bytes the process delivers at [a] are the needle. *)
Definition needleAt (proc : Process) (needle : list ascii) (a : Z) : bool :=
  match read proc a (Z.of_nat (length needle)) with
  | Some got => bool_decide (got = needle)
  | None => false
  end.

(** The addresses [start], [start + 1], ..., [start + n - 1]. *)
Definition addresses (start : Z) (n : nat) : list Z :=
  List.map (fun k => start + Z.of_nat k) (seq 0 n).

(** The option is one of the list handed to [getopt]. *)
Definition known (o : Opt) : bool :=
  match o with
  | Opt_other => false
  | _ => true
  end.

(** The option neither starts an address range nor asks for the usage
    line. *)
Definition leavesRangeOff (o : Opt) : bool :=
  match o with
  | Opt_f _ | Opt_h => false
  | _ => true
  end.

(** The counts of a list, each at most the ones before it. *)
Fixpoint nonIncreasing (l : list Z) : Prop :=
  match l with
  | [] => True
  | x :: rest => (forall y, In y rest -> y <= x) /\ nonIncreasing rest
  end.

Definition rowCount (o : Output) : Z :=
  match o with
  | PrintCount n _ _ => n
  | _ => 0
  end.

Definition row (s : ListedSymbol) : Output := PrintCount (count s) (name s) (objname s).

(** A process whose memory at 0x10000 holds "say hello" and nothing
    else. *)
Definition greeting : list ascii := list_ascii_of_string "say hello".

Definition greetingProcess : Process :=
  {| objects := [];
     readPage := fun _ => None;
     read := fun a n =>
       if (65536 <=? a) && (a <? 65545)
       then Some (firstn (Z.to_nat n)
                         (skipn (Z.to_nat (a - 65536)) greeting ++ repeat NUL (Z.to_nat n)))
       else None |}.

(** Three listed symbols with counts 2, 0 and 5. *)
Definition counted : list ListedSymbol :=
  [hit (hit vtableA); vtableB; hit (hit (hit (hit (hit vtableB))))].

(** The name the reader delivers for the header [h], relative to the
    string section [sshdr]. *)
Definition nameOf (rd : Reader) (sshdr h : Elf_Shdr) : option string :=
  readString rd (wrap (sh_offset sshdr + sh_name h)).

End Further.
(** * Properties *)

Import Word Elf Canal.

(** ** Outcomes *)

Lemma bind_Done {A B} (m : Outcome A) (f : A -> Outcome B) (b : B) :
  m ≫= f = Done b -> exists a, m = Done a /\ f a = Done b.
Proof.
  destruct m as [a | e | u]; cbn; intros H; try discriminate.
  exists a; split; [reflexivity | exact H].
Qed.

Lemma index_Done {A} (v : list A) (i : Z) (a : A) :
  index v i = Done a <-> (0 <= i /\ nth_error v (Z.to_nat i) = Some a).
Proof.
  unfold index. split.
  - destruct (0 <=? i) eqn:H0; cbn; [| discriminate].
    destruct (i <? Z.of_nat (length v)) eqn:H1; cbn; [| discriminate].
    destruct (nth_error v (Z.to_nat i)) eqn:E; [| discriminate].
    intros [= ->]. split; [lia | reflexivity].
  - intros [H0 E].
    assert (Hlt : (Z.to_nat i < length v)%nat)
      by (apply nth_error_Some; rewrite E; discriminate).
    replace (0 <=? i) with true by (symmetry; apply Z.leb_le; lia).
    replace (i <? Z.of_nat (length v)) with true by (symmetry; apply Z.ltb_lt; lia).
    cbn. rewrite E. reflexivity.
Qed.

Lemma index_out_of_bounds {A} (v : list A) (i : Z) :
  Z.of_nat (length v) <= i -> index v i = Undefined (OutOfBounds i (Z.of_nat (length v))).
Proof.
  intros H. unfold index.
  replace (i <? Z.of_nat (length v)) with false by (symmetry; apply Z.ltb_ge; lia).
  rewrite andb_false_r. reflexivity.
Qed.

Lemma readTable_length {A} (rd : Z -> option A) (n : nat) :
  forall off stride l, readTable rd off stride n = Done l -> length l = n.
Proof.
  induction n as [| n IH]; cbn; intros off stride l H.
  - injection H as <-. reflexivity.
  - apply bind_Done in H as (x & _ & H).
    apply bind_Done in H as (rest & Hrest & H).
    injection H as <-. cbn. f_equal. eapply IH, Hrest.
Qed.

(** ** Parsing: the header check and the section-name table *)

Import Fixtures.

Import Notions.

Lemma bind_throwsOnly {A B} (m : Outcome A) (f : A -> Outcome B) :
  throwsOnlyReadFailed m -> (forall a, throwsOnlyReadFailed (f a)) ->
  throwsOnlyReadFailed (m ≫= f).
Proof.
  intros Hm Hf. destruct m as [a | e | u]; cbn.
  - apply Hf.
  - intros e' [= <-]. apply Hm. reflexivity.
  - intros e' [=].
Qed.

Lemma orThrow_throwsOnly {A} (o : option A) : throwsOnlyReadFailed (orThrow o).
Proof. destruct o; intros e [=]. symmetry. assumption. Qed.

Lemma index_throwsOnly {A} (v : list A) (i : Z) : throwsOnlyReadFailed (index v i).
Proof.
  unfold index. destruct (_ && _); [destruct (nth_error _ _) |]; intros e [=].
Qed.

Lemma Done_throwsOnly {A} (a : A) : throwsOnlyReadFailed (Done a).
Proof. intros e [=]. Qed.

Lemma Undefined_throwsOnly {A} (u : Fault) : throwsOnlyReadFailed (@Undefined A u).
Proof. intros e [=]. Qed.

Create HintDb quiet.

#[local] Hint Resolve orThrow_throwsOnly index_throwsOnly Done_throwsOnly
  Undefined_throwsOnly : quiet.

Ltac quiet :=
  repeat first
    [ apply bind_throwsOnly; [| intros ?]
    | solve [auto with quiet] ].

Lemma readTable_throwsOnly {A} (rd : Z -> option A) (n : nat) :
  forall off stride, throwsOnlyReadFailed (readTable rd off stride n).
Proof.
  induction n as [| n IH]; cbn; intros off stride; quiet.
Qed.

Lemma nameSections_throwsOnly (rd : Reader) (sshdr : Elf_Shdr) (hs : list Elf_Shdr) :
  forall i m, throwsOnlyReadFailed (nameSections rd sshdr hs i m).
Proof.
  induction hs as [| h rest IH]; cbn; intros i m; quiet.
Qed.

Lemma shdrOf_throwsOnly (s : ElfSection) : throwsOnlyReadFailed (shdrOf s).
Proof. unfold shdrOf. destruct (sec_shdr s); quiet. Qed.

Lemma getLink_throwsOnly (s : ElfSection) : throwsOnlyReadFailed (getLink s).
Proof. unfold getLink. quiet. apply shdrOf_throwsOnly. Qed.

#[local] Hint Resolve shdrOf_throwsOnly getLink_throwsOnly : quiet.

Lemma ElfSymHash_new_throwsOnly (s : ElfSection) : throwsOnlyReadFailed (ElfSymHash_new s).
Proof.
  unfold ElfSymHash_new. quiet.
Qed.

(** No path through [init] throws [NotElf]: the test that guards the
    [throw] starts with [false &&]. *)
Lemma init_throwsOnlyReadFailed (io_ : Reader) (name_ : string) :
  throwsOnlyReadFailed (init io_ name_).
Proof.
  unfold init. apply bind_throwsOnly; [auto with quiet | intros hdr].
  cbn [andb].
  apply bind_throwsOnly; [apply readTable_throwsOnly | intros phdrs].
  apply bind_throwsOnly; [apply readTable_throwsOnly | intros shdrs].
  destruct (negb _); [| auto with quiet].
  apply bind_throwsOnly; [auto with quiet | intros sshdr].
  apply bind_throwsOnly; [apply nameSections_throwsOnly | intros named].
  cbv zeta. destruct (sec_shdr _); [| auto with quiet].
  apply bind_throwsOnly; [apply ElfSymHash_new_throwsOnly | intros h; auto with quiet].
Qed.

(** C1 (code as written): a file whose first bytes are "MZ", not the ELF
    magic, is parsed without complaint: [init] returns an object, and in
    general [init] never ends in [NotElf]. *)
Theorem init_accepts_non_elf :
  readEhdr notElf 0 = Some pe_header /\
  IS_ELF pe_header = false /\
  (ident pe_header EI_VERSION =? EV_CURRENT) = false /\
  (exists obj, ElfObject_of_reader notElf = Done obj /\ elfHeader obj = pe_header) /\
  (forall io_ name_ what, init io_ name_ <> Throws (NotElf what)).
Proof.
  split; [reflexivity |]. split; [reflexivity |]. split; [reflexivity |]. split.
  - eexists. split; reflexivity.
  - intros io_ name_ what H. apply init_throwsOnlyReadFailed in H. discriminate.
Qed.

(** C8 (code as written): with no section headers and [e_shstrndx = 1],
    [init] indexes the empty section-header vector at 1. *)
Theorem init_shstrndx_unchecked :
  ElfObject_of_reader badShstrndx = Undefined (OutOfBounds 1 0).
Proof. reflexivity. Qed.

(** The same for every header: once the two tables are read, a non-zero
    [e_shstrndx] at or past [e_shnum] is used as an index all the same. *)
Lemma init_shstrndx_past_end (io_ : Reader) (name_ : string) (hdr : Elf_Ehdr)
      (phdrs : list Elf_Phdr) (shdrs : list Elf_Shdr) :
  readEhdr io_ 0 = Some hdr ->
  readTable (readPhdr io_) (e_phoff hdr) (e_phentsize hdr) (Z.to_nat (e_phnum hdr)) = Done phdrs ->
  readTable (readShdr io_) (e_shoff hdr) (e_shentsize hdr) (Z.to_nat (e_shnum hdr)) = Done shdrs ->
  e_shstrndx hdr <> SHN_UNDEF ->
  0 <= e_shnum hdr <= e_shstrndx hdr ->
  init io_ name_ = Undefined (OutOfBounds (e_shstrndx hdr) (e_shnum hdr)).
Proof.
  intros Hh Hp Hs Hne Hge. unfold init. rewrite Hh. cbn. rewrite Hp. cbn. rewrite Hs. cbn.
  apply readTable_length in Hs.
  replace (e_shstrndx hdr =? SHN_UNDEF) with false by (symmetry; apply Z.eqb_neq; exact Hne).
  cbn. rewrite index_out_of_bounds by lia. cbn. do 2 f_equal. lia.
Qed.

(** ** The debug companion *)

Lemma getDebug_none (obj : ElfObject) : getDebug obj = (None, obj).
Proof. reflexivity. Qed.

Lemma getSection_local (obj : ElfObject) (nm : string) (type : Z) :
  getSection obj nm type = localSection obj nm type.
Proof. reflexivity. Qed.

(** C5 (code as written): the sample object has a [.gnu_debuglink]
    section naming [libsample.so.debug], and that file exists under
    [/usr/lib/debug/usr/lib] and parses: the statements behind the leading
    [return 0;] would open and keep it, but [getDebug] returns null and
    leaves [debugLoaded] and [debug] as they were; it does so for every
    object. *)
Theorem getDebug_returns_null_despite_debuglink :
  sec_shdr (getSection sampleObject ".gnu_debuglink" SHT_PROGBITS) = Some 6%nat /\
  match getDebug_lookup sample_fs sample_dirname sampleObject with
  | Done (Some d, obj') =>
      Elf.name d = "/usr/lib/debug/usr/lib/libsample.so.debug"%string /\
      debugLoaded obj' = true /\ debug obj' = Some d
  | _ => False
  end /\
  getDebug sampleObject = (None, sampleObject) /\
  debugLoaded (snd (getDebug sampleObject)) = false /\
  (forall obj, getDebug obj = (None, obj)).
Proof.
  split; [vm_compute; reflexivity |].
  split; [vm_compute; repeat split |].
  split; [reflexivity |].
  split; [vm_compute; reflexivity |].
  intros obj. reflexivity.
Qed.

(** ** Segments *)

Lemma getBase_fold (l : list Elf_Phdr) :
  forall b,
    let r := fold_left getBase_step l b in
    r <= b /\
    (forall h, In h l -> p_type h = PT_LOAD -> r <= p_vaddr h) /\
    (r = b \/ exists h, In h l /\ p_type h = PT_LOAD /\ p_vaddr h = r).
Proof.
  induction l as [| x l IH]; intros b; cbn.
  - split; [lia |]. split; [intros h [] | left; reflexivity].
  - specialize (IH (getBase_step b x)). cbv zeta in IH.
    destruct IH as (Hle & Hmin & Hwit).
    assert (Hstep : getBase_step b x <= b /\
                    (p_type x = PT_LOAD -> getBase_step b x <= p_vaddr x) /\
                    (getBase_step b x = b \/
                     (p_type x = PT_LOAD /\ p_vaddr x = getBase_step b x))).
    { unfold getBase_step.
      destruct (p_type x =? PT_LOAD) eqn:Ht; cbn.
      - apply Z.eqb_eq in Ht.
        destruct (p_vaddr x <=? b) eqn:Hv.
        + apply Z.leb_le in Hv. repeat split; [lia | lia | right; split; auto].
        + apply Z.leb_gt in Hv. repeat split; [lia | lia | left; reflexivity].
      - apply Z.eqb_neq in Ht. repeat split; [lia | contradiction | left; reflexivity]. }
    destruct Hstep as (Hsle & Hsx & Hsw).
    split; [lia |]. split.
    + intros h [<- | Hin] Ht; [specialize (Hsx Ht); lia | apply Hmin; assumption].
    + destruct Hwit as [Heq | (h & Hin & Ht & Hv)].
      * rewrite Heq. destruct Hsw as [-> | [Ht Hv]]; [left; reflexivity |].
        right. exists x. split; [left; reflexivity | split; assumption].
      * right. exists h. split; [right; assumption | split; assumption].
Qed.

(** [getBase] is the least [p_vaddr] among the [PT_LOAD] segments when
    there is one (and the largest [Elf_Off] otherwise). *)
Lemma getBase_least (obj : ElfObject) (h : Elf_Phdr) :
  In h (programHeaders obj) -> p_type h = PT_LOAD ->
  (forall h', In h' (programHeaders obj) -> p_type h' = PT_LOAD -> p_vaddr h <= p_vaddr h') ->
  p_vaddr h <= Elf_Off_max ->
  getBase obj = p_vaddr h.
Proof.
  intros Hin Ht Hmin Hmax. unfold getBase, getSegments.
  destruct (getBase_fold (programHeaders obj) Elf_Off_max) as (Hle & Hlow & Hwit).
  cbv zeta in *. specialize (Hlow h Hin Ht).
  destruct Hwit as [Heq | (h' & Hin' & Ht' & Hv')].
  - lia.
  - specialize (Hmin h' Hin' Ht'). lia.
Qed.

Lemma getBase_no_load (obj : ElfObject) :
  (forall h, In h (programHeaders obj) -> p_type h <> PT_LOAD) ->
  getBase obj = Elf_Off_max.
Proof.
  intros Hno. unfold getBase, getSegments.
  destruct (getBase_fold (programHeaders obj) Elf_Off_max) as (_ & _ & Hwit).
  destruct Hwit as [Heq | (h' & Hin' & Ht' & _)]; [exact Heq |].
  exfalso. exact (Hno h' Hin' Ht').
Qed.

(** C4 (as stated, refuted): the sample without program headers, a
    relocatable object, has no segment that covers its base. *)
Lemma base_not_covered_without_load :
  programHeaders relocatableObject = [] /\
  getBase relocatableObject = Elf_Off_max /\
  findHeaderForAddress relocatableObject (getBase relocatableObject) = None.
Proof. repeat split. Qed.

(** C4 (amended): when the image has a [PT_LOAD] segment of least
    [p_vaddr] that is not empty and does not wrap around the address
    space, [getBase] is that [p_vaddr] and [findHeaderForAddress] finds a
    [PT_LOAD] header whose half-open range covers it. *)
Theorem base_covered_by_lowest_load (obj : ElfObject) (h : Elf_Phdr) :
  In h (programHeaders obj) -> p_type h = PT_LOAD ->
  (forall h', In h' (programHeaders obj) -> p_type h' = PT_LOAD -> p_vaddr h <= p_vaddr h') ->
  0 <= p_vaddr h -> 0 < p_memsz h -> p_vaddr h + p_memsz h < modulus ->
  getBase obj = p_vaddr h /\
  exists hdr,
    findHeaderForAddress obj (getBase obj) = Some hdr /\
    In hdr (programHeaders obj) /\ p_type hdr = PT_LOAD /\
    p_vaddr hdr <= getBase obj < wrap (p_vaddr hdr + p_memsz hdr).
Proof.
  intros Hin Ht Hmin H0 Hsz Hfit.
  assert (Hbase : getBase obj = p_vaddr h).
  { apply getBase_least; try assumption. unfold Elf_Off_max. lia. }
  split; [exact Hbase |]. rewrite Hbase. unfold findHeaderForAddress.
  assert (Hcov : coversLoad (p_vaddr h) h = true).
  { unfold coversLoad, wrap. rewrite Z.mod_small by lia.
    apply andb_true_intro; split; [apply andb_true_intro; split |].
    - apply Z.leb_le. lia.
    - apply Z.gtb_lt. lia.
    - apply Z.eqb_eq. exact Ht. }
  destruct (List.find (coversLoad (p_vaddr h)) (programHeaders obj)) as [hdr |] eqn:Hf.
  - exists hdr. apply find_some in Hf as [Hin' Hc]. unfold coversLoad in Hc.
    apply andb_prop in Hc as [Hc Hty]. apply andb_prop in Hc as [Hlo Hhi].
    apply Z.leb_le in Hlo. apply Z.gtb_lt in Hhi. apply Z.eqb_eq in Hty.
    repeat split; assumption.
  - exfalso. pose proof (find_none _ _ Hf h Hin) as Hn. congruence.
Qed.

Lemma base_covered_by_lowest_load_witness :
  getBase sampleObject = 4096 /\
  exists hdr,
    findHeaderForAddress sampleObject (getBase sampleObject) = Some hdr /\
    In hdr (programHeaders sampleObject) /\ p_type hdr = PT_LOAD /\
    p_vaddr hdr <= getBase sampleObject < wrap (p_vaddr hdr + p_memsz hdr).
Proof.
  apply (base_covered_by_lowest_load sampleObject sample_load).
  - left. reflexivity.
  - reflexivity.
  - intros h' [<- | []] _. cbn. lia.
  - cbn. lia.
  - cbn. lia.
  - vm_compute. reflexivity.
Defined.

(** ** Lookup by address *)

Section ByAddress.

Variable obj : ElfObject.
Variables addr type : Z.

Lemma examine_exact (st : AddrSearch) (c : Elf_Sym * string) :
  exactMatch obj addr type c = true -> examine obj addr type st c = ReturnTrue c.
Proof.
  intros H. unfold exactMatch, inAllocatedSection in H.
  repeat (apply andb_prop in H as [H ?]).
  unfold examine.
  replace (st_shndx (fst c) >=? Z.of_nat (length (sectionHeaders obj))) with false
    by (symmetry; rewrite Z.geb_leb; apply Z.leb_gt, Z.ltb_lt; assumption).
  destruct (nth_error (sectionHeaders obj) (Z.to_nat (st_shndx (fst c)))) as [shdr |];
    [| discriminate].
  match goal with Hn : negb (Z.land _ _ =? 0) = true |- _ =>
    apply negb_true_iff in Hn; rewrite Hn end.
  match goal with Ht : (_ || _) = true |- _ =>
    replace (negb (type =? STT_NOTYPE) && negb (ELF_ST_TYPE (st_info (fst c)) =? type))
      with false
      by (symmetry; rewrite <- negb_orb; apply negb_false_iff; exact Ht) end.
  match goal with Hv : (st_value _ <=? addr) = true |- _ =>
    replace (st_value (fst c) >? addr) with false
      by (symmetry; rewrite Z.gtb_ltb; apply Z.ltb_ge, Z.leb_le; exact Hv) end.
  match goal with Hs : negb (st_size _ =? 0) = true |- _ => rewrite Hs end.
  match goal with Hw : (wrap _ >? addr) = true |- _ => rewrite Hw end.
  reflexivity.
Qed.

Lemma examine_not_exact (st : AddrSearch) (c : Elf_Sym * string) :
  exactMatch obj addr type c = false -> exists st', examine obj addr type st c = Continue st'.
Proof.
  intros H. unfold examine.
  destruct (st_shndx (fst c) >=? _) eqn:Hge; [eexists; reflexivity |].
  destruct (nth_error _ _) as [shdr |] eqn:Hn; [| eexists; reflexivity].
  destruct (Z.land _ _ =? 0) eqn:Ha; [eexists; reflexivity |].
  destruct (negb (type =? STT_NOTYPE) && _) eqn:Ht; [eexists; reflexivity |].
  destruct (st_value (fst c) >? addr) eqn:Hv; [eexists; reflexivity |].
  destruct (negb (st_size (fst c) =? 0)) eqn:Hs.
  - destruct (wrap _ >? addr) eqn:Hw; [| eexists; reflexivity].
    exfalso. unfold exactMatch, inAllocatedSection in H.
    rewrite Hn, Ha, Hs, Hw in H.
    rewrite <- negb_orb in Ht. apply negb_false_iff in Ht. rewrite Ht in H.
    replace (st_value (fst c) <=? addr) with true in H
      by (symmetry; apply Z.leb_le; rewrite Z.gtb_ltb in Hv; apply Z.ltb_ge in Hv; exact Hv).
    replace (st_shndx (fst c) <? Z.of_nat (length (sectionHeaders obj))) with true in H
      by (symmetry; rewrite Z.geb_leb in Hge; apply Z.leb_gt in Hge; apply Z.ltb_lt; exact Hge).
    discriminate.
  - destruct (lowest st <? _); eexists; reflexivity.
Qed.

(** On a table that reads without error, the inner loop returns the
    first exact match, or runs to the end. *)
Lemma examineAll_first (l : list (Elf_Sym * string)) :
  forall st,
    match List.find (exactMatch obj addr type) l with
    | Some c => examineAll obj addr type st (List.map Done l) = Done (ReturnTrue c)
    | None => exists st', examineAll obj addr type st (List.map Done l) = Done (Continue st')
    end.
Proof.
  induction l as [| c l IH]; intros st; cbn.
  - eexists; reflexivity.
  - destruct (exactMatch obj addr type c) eqn:Hm.
    + rewrite (examine_exact st c Hm). reflexivity.
    + destruct (examine_not_exact st c Hm) as [st' ->]. apply IH.
Qed.

End ByAddress.

Lemma collect_Done {A} (xs : list (Outcome A)) :
  forall l, collect xs = Done l -> xs = List.map Done l.
Proof.
  induction xs as [| x xs IH]; cbn; intros l H.
  - injection H as <-. reflexivity.
  - apply bind_Done in H as (a & -> & H).
    apply bind_Done in H as (r & Hr & H).
    injection H as <-. cbn. f_equal. apply IH, Hr.
Qed.

Lemma find_app_first {A} (f : A -> bool) (l1 l2 : list A) :
  List.find f (l1 ++ l2) =
  match List.find f l1 with
  | Some x => Some x
  | None => List.find f l2
  end.
Proof.
  induction l1 as [| x l1 IH]; cbn; [reflexivity |].
  destruct (f x); [reflexivity | exact IH].
Qed.

(** Over the tables: the search returns the first exact match in scan
    order, or finishes all tables without one. *)
Lemma findSymbolByAddress_tables_first (obj : ElfObject) (addr type : Z) (names : list string) :
  forall l st,
    entriesOf obj names = Done l ->
    match List.find (exactMatch obj addr type) l with
    | Some c => findSymbolByAddress_tables obj addr type st names = Done (ReturnTrue c)
    | None => exists st', findSymbolByAddress_tables obj addr type st names = Done (Continue st')
    end.
Proof.
  induction names as [| nm rest IH]; intros l st H;
    cbn [findSymbolByAddress_tables entriesOf] in *.
  - injection H as <-. cbn. eexists; reflexivity.
  - apply bind_Done in H as (a & Ha & H).
    apply bind_Done in H as (b & Hb & H).
    injection H as <-.
    rewrite find_app_first.
    unfold tableEntries in Ha. cbv zeta in *.
    destruct (sec_shdr (getSection obj nm SHT_NULL)) as [i |].
    + apply bind_Done in Ha as (shdr & Hsh & Ha). rewrite Hsh.
      cbn [mbind Outcome_bind].
      destruct (sh_type shdr =? SHT_NOBITS).
      * injection Ha as <-. cbn [List.find]. apply IH; assumption.
      * apply bind_Done in Ha as (ss & Hss & Ha). rewrite Hss.
        cbn [mbind Outcome_bind].
        apply collect_Done in Ha. rewrite Ha.
        pose proof (examineAll_first obj addr type a st) as Hex.
        destruct (List.find (exactMatch obj addr type) a) as [c |].
        -- rewrite Hex. reflexivity.
        -- destruct Hex as [st' ->]. cbn [mbind Outcome_bind]. apply IH; assumption.
    + injection Ha as <-. cbn [List.find]. apply IH; assumption.
Qed.

(** C2 (as stated, refuted): [foo_alias] has a size and lies in the
    allocated [.text], yet the lookup at its own address and kind returns
    [foo], the entry that precedes it in [.dynsym] and covers the same
    range. *)
Lemma findSymbolByAddress_returns_earlier_alias :
  scannedSymbols sampleObject =
    Done [(null_sym, EmptyString); (foo_sym, "foo"); (foo_alias_sym, "foo_alias"); (bar_sym, "bar")]%string /\
  inAllocatedSection sampleObject foo_alias_sym = true /\
  0 < st_size foo_alias_sym /\
  findSymbolByAddress sampleObject (st_value foo_alias_sym + 0)
                      (ELF_ST_TYPE (st_info foo_alias_sym))
    = Done (true, Some (foo_sym, "foo"%string)) /\
  (foo_sym, "foo"%string) <> (foo_alias_sym, "foo_alias"%string).
Proof.
  split; [vm_compute; reflexivity |].
  split; [vm_compute; reflexivity |].
  split; [vm_compute; reflexivity |].
  split; [vm_compute; reflexivity |].
  discriminate.
Qed.

(** C2 (amended): for a symbol [s] of non-zero size in an allocated
    section whose range [st_value, st_value + st_size) does not wrap, and
    an image whose tables read without error, the lookup at
    [st_value + k], [0 <= k < st_size], with the kind of [s] returns true
    with an exact containment match: the first entry in the order
    [.symtab], [.dynsym] that is allocated, of that kind and contains the
    address.  It is [s] itself when no earlier entry is such a match. *)
Theorem findSymbolByAddress_first_exact_match
        (obj : ElfObject) (l pre post : list (Elf_Sym * string))
        (s : Elf_Sym) (nm : string) (k : Z) :
  scannedSymbols obj = Done l ->
  l = pre ++ (s, nm) :: post ->
  inAllocatedSection obj s = true ->
  0 < st_size s -> 0 <= st_value s -> st_value s + st_size s < modulus ->
  0 <= k < st_size s ->
  exists found,
    findSymbolByAddress obj (st_value s + k) (ELF_ST_TYPE (st_info s)) = Done (true, Some found) /\
    List.find (exactMatch obj (st_value s + k) (ELF_ST_TYPE (st_info s))) l = Some found /\
    exactMatch obj (st_value s + k) (ELF_ST_TYPE (st_info s)) found = true /\
    (Forall (fun c => exactMatch obj (st_value s + k) (ELF_ST_TYPE (st_info s)) c = false) pre ->
     found = (s, nm)).
Proof.
  intros Hl -> Halloc Hsz Hv Hfit Hk.
  set (addr := st_value s + k). set (type := ELF_ST_TYPE (st_info s)).
  assert (Hs : exactMatch obj addr type (s, nm) = true).
  { unfold exactMatch. cbn [fst]. rewrite Halloc. unfold type, addr.
    rewrite Z.eqb_refl, orb_true_r. cbn [andb].
    replace (st_value s <=? st_value s + k) with true by (symmetry; apply Z.leb_le; lia).
    replace (st_size s =? 0) with false by (symmetry; apply Z.eqb_neq; lia).
    cbn [andb negb]. apply Z.gtb_lt. unfold wrap. rewrite Z.mod_small by lia. lia. }
  pose proof (findSymbolByAddress_tables_first obj addr type sectionNames _
                {| lowest := 0; held := None |} Hl) as Ht.
  destruct (List.find (exactMatch obj addr type) (pre ++ (s, nm) :: post)) as [found |] eqn:Hf.
  - exists found. split; [| split; [reflexivity | split]].
    + unfold findSymbolByAddress. rewrite Ht. reflexivity.
    + apply find_some in Hf. apply Hf.
    + intros Hpre. rewrite find_app_first in Hf.
      assert (Hnone : List.find (exactMatch obj addr type) pre = None).
      { clear -Hpre. induction Hpre as [| c pre Hc _ IH]; cbn; [reflexivity |].
        rewrite Hc. exact IH. }
      rewrite Hnone in Hf. cbn in Hf. rewrite Hs in Hf. congruence.
  - exfalso. pose proof (find_none _ _ Hf (s, nm)) as Hn.
    rewrite Hn in Hs; [discriminate |]. apply in_or_app. right. left. reflexivity.
Qed.

Lemma findSymbolByAddress_first_exact_match_witness :
  exists found,
    findSymbolByAddress sampleObject (st_value bar_sym + 5) (ELF_ST_TYPE (st_info bar_sym))
      = Done (true, Some found) /\
    List.find (exactMatch sampleObject (st_value bar_sym + 5) (ELF_ST_TYPE (st_info bar_sym)))
              [(null_sym, EmptyString); (foo_sym, "foo"); (foo_alias_sym, "foo_alias"); (bar_sym, "bar")]%string
      = Some found /\
    exactMatch sampleObject (st_value bar_sym + 5) (ELF_ST_TYPE (st_info bar_sym)) found = true /\
    (Forall (fun c => exactMatch sampleObject (st_value bar_sym + 5)
                                 (ELF_ST_TYPE (st_info bar_sym)) c = false)
            [(null_sym, EmptyString); (foo_sym, "foo"); (foo_alias_sym, "foo_alias")]%string ->
     found = (bar_sym, "bar"%string)).
Proof.
  apply (findSymbolByAddress_first_exact_match sampleObject _ _ [] bar_sym "bar" 5).
  - vm_compute. reflexivity.
  - reflexivity.
  - vm_compute. reflexivity.
  - cbn. lia.
  - cbn. lia.
  - vm_compute. reflexivity.
  - cbn. lia.
Defined.

(** ** Glob matching *)

Lemma list_ascii_of_string_app (s t : string) :
  list_ascii_of_string (s +:+ t) = list_ascii_of_string s ++ list_ascii_of_string t.
Proof.
  induction s as [| c s IH]; [reflexivity |].
  change (String c s +:+ t)%string with (String c (s +:+ t)).
  cbn [list_ascii_of_string app]. f_equal. exact IH.
Qed.

(** A trailing ['*'] met when [name] already stands on its terminator:
    the loop steps over the terminator and runs through the memory behind
    it until a zero byte turns up. *)
Lemma globmatchR_star_past_terminator (behind : list ascii) :
  forall x,
    globmatchR ["*"%char; NUL] (x :: behind) =
    if has_nul behind then Done true else Undefined ReadPastEnd.
Proof.
  induction behind as [| b rest IH]; intros x; [reflexivity |].
  change (globmatchR ["*"%char; NUL] (x :: b :: rest))
    with (match globmatchR [NUL] (b :: rest) with
          | Done true => Done true
          | Done false =>
              if Ascii.eqb b NUL then Done false else globmatchR ["*"%char; NUL] (b :: rest)
          | Throws e => Throws e
          | Undefined u => Undefined u
          end).
  rewrite IH.
  cbn [globmatchR has_nul existsb].
  rewrite (Ascii.eqb_sym NUL b).
  change (Ascii.eqb NUL "*") with false. cbn [negb].
  destruct (Ascii.eqb b NUL) eqn:Hb; cbn; reflexivity.
Qed.

(** [globmatch(s + "*", s)] never answers 0: it reports a match when a
    zero byte lies somewhere behind the terminator of [s], and reads past
    the end of memory otherwise. *)
Lemma globmatchR_star_suffix_self (s behind : list ascii) :
  ~ In NUL s ->
  globmatchR (s ++ ["*"%char; NUL]) (s ++ NUL :: behind) =
  if has_nul behind then Done true else Undefined ReadPastEnd.
Proof.
  induction s as [| c s IH]; intros Hnul.
  - apply globmatchR_star_past_terminator.
  - assert (Hc : Ascii.eqb c NUL = false).
    { apply Ascii.eqb_neq. intros ->. apply Hnul. left. reflexivity. }
    assert (Hs : ~ In NUL s) by (intros Hin; apply Hnul; right; exact Hin).
    specialize (IH Hs).
    cbn [app globmatchR]. destruct (Ascii.eqb c "*") eqn:Hstar.
    + rewrite IH. destruct (has_nul behind); reflexivity.
    + rewrite Ascii.eqb_refl. cbn [negb]. rewrite Hc. exact IH.
Qed.

Lemma globmatch_star_suffix_self (s : string) (behind : list ascii) :
  ~ In NUL (list_ascii_of_string s) ->
  globmatch (s +:+ "*") s behind =
  if has_nul behind then Done true else Undefined ReadPastEnd.
Proof.
  intros Hnul. unfold globmatch, c_str. rewrite list_ascii_of_string_app.
  rewrite <- app_assoc. cbn [list_ascii_of_string app].
  apply globmatchR_star_suffix_self. exact Hnul.
Qed.

(** A trailing ['*'] with at least one character of [name] left: a match,
    found without leaving the string. *)
Lemma globmatchR_star_nonempty (t behind : list ascii) :
  ~ In NUL t ->
  forall x, globmatchR ["*"%char; NUL] (x :: t ++ NUL :: behind) = Done true.
Proof.
  induction t as [| c t IH]; intros Hnul x; [reflexivity |].
  assert (Hc : Ascii.eqb c NUL = false).
  { apply Ascii.eqb_neq. intros ->. apply Hnul. left. reflexivity. }
  change (globmatchR ["*"%char; NUL] (x :: (c :: t) ++ NUL :: behind))
    with (match globmatchR [NUL] (c :: t ++ NUL :: behind) with
          | Done true => Done true
          | Done false =>
              if Ascii.eqb c NUL then Done false
              else globmatchR ["*"%char; NUL] (c :: t ++ NUL :: behind)
          | Throws e => Throws e
          | Undefined u => Undefined u
          end).
  rewrite IH by (intros Hin; apply Hnul; right; exact Hin).
  cbn [globmatchR]. change (Ascii.eqb NUL "*") with false. cbn [negb].
  rewrite Hc. cbn [negb]. reflexivity.
Qed.

(** Characters of the pattern other than ['*'] consume the same
    characters of the name. *)
Lemma globmatchR_literal_prefix (p pattern name : list ascii) :
  ~ In NUL p -> ~ In "*"%char p ->
  globmatchR (p ++ pattern) (p ++ name) = globmatchR pattern name.
Proof.
  induction p as [| c p IH]; intros Hnul Hstar; [reflexivity |].
  assert (Hc : Ascii.eqb c NUL = false).
  { apply Ascii.eqb_neq. intros ->. apply Hnul. left. reflexivity. }
  assert (Hs : Ascii.eqb c "*" = false).
  { apply Ascii.eqb_neq. intros ->. apply Hstar. left. reflexivity. }
  cbn [app globmatchR]. rewrite Hs, Ascii.eqb_refl, Hc. cbn [negb].
  apply IH; intros Hin; [apply Hnul | apply Hstar]; right; exact Hin.
Qed.

(** The default pattern matches every name that strictly extends
    ["_ZTV"], whatever lies behind the name in memory. *)
Lemma default_pattern_matches_extensions (c : ascii) (t : string) (behind : list ascii) :
  ~ In NUL (c :: list_ascii_of_string t) ->
  globmatch default_pattern ("_ZTV" +:+ String c t) behind = Done true.
Proof.
  intros Hnul. unfold globmatch, c_str, default_pattern.
  rewrite list_ascii_of_string_app, <- app_assoc.
  change (list_ascii_of_string "_ZTV*" ++ [NUL])
    with (list_ascii_of_string "_ZTV" ++ ["*"%char; NUL]).
  rewrite globmatchR_literal_prefix.
  - cbn [list_ascii_of_string app].
    apply (globmatchR_star_nonempty (list_ascii_of_string t) behind).
    intros Hin. apply Hnul. right. exact Hin.
  - cbn. intros [H | [H | [H | [H | []]]]]; discriminate.
  - cbn. intros [H | [H | [H | [H | []]]]]; discriminate.
Qed.

(** C10 (code as written): for the pattern ["_ZTV*"] and the name
    ["_ZTV"] the matcher steps over the terminator of the name.  With a
    zero byte right behind the terminator, or behind two further bytes,
    it reports a match; with no readable byte behind the terminator the
    read leaves memory.  It never answers "no match" here, while a name
    that extends ["_ZTV"] by one character or more is matched. *)
Theorem globmatch_default_pattern_on_bare_prefix :
  globmatch "_ZTV*" "_ZTV" [NUL] = Done true /\
  globmatch "_ZTV*" "_ZTV" ["1"%char; "C"%char; NUL] = Done true /\
  globmatch "_ZTV*" "_ZTV" [] = Undefined ReadPastEnd /\
  globmatch "_ZTV*" "_ZTV1C" [] = Done true /\
  globmatch "_ZTV*" "_ZTW1C" [] = Done false.
Proof. repeat split. Qed.

(** ** The sweep *)

(** In the address-range search every accepted word of a page adds the
    same line: the address [loc] of the page. *)
Lemma scanWords_findRef (c : Config) (loc : Z) (words : list Z) :
  findRef c = true ->
  forall i l o,
    scanWords c loc i words (l, o) =
    (l, o ++ List.map (fun _ => PrintAddress loc) (List.filter (inSearchedRange c) words)).
Proof.
  intros Href. induction words as [| p rest IH]; intros i l o; cbn [scanWords].
  - cbn. rewrite app_nil_r. reflexivity.
  - unfold scanWord at 1. rewrite Href. cbn [List.filter].
    fold (inSearchedRange c p).
    destruct (inSearchedRange c p).
    + rewrite IH. cbn [List.map]. rewrite <- app_assoc. reflexivity.
    + apply IH.
Qed.

(** C7 (code as written): with [-f 0x1000 -e 0x2000] and a page at
    0x10000 whose words 1, 2 and 3 hold 0x1000, 0x1004 and 0x1ffc (and
    whose words 4 and 5 hold 0x2000 and the unaligned 0x1002), the sweep
    prints the address of the page three times, not the addresses
    0x10008, 0x10010 and 0x10018 of the three words. *)
Theorem findRef_prints_page_address :
  scanSegment 2 sample_host (process_with [0; 4096; 4100; 8188; 8192; 4098]) refSearch
              heap_segment {| listed := []; out := []; strbuf := [] |}
  = Some (Done {| listed := [];
                  out := [PrintAddress 65536; PrintAddress 65536; PrintAddress 65536];
                  strbuf := [] |}) /\
  [PrintAddress 65536; PrintAddress 65536; PrintAddress 65536]
  <> [PrintAddress (65536 + 1 * sizeof_pointer); PrintAddress (65536 + 2 * sizeof_pointer);
      PrintAddress (65536 + 3 * sizeof_pointer)].
Proof. split; [vm_compute; reflexivity | discriminate]. Qed.

(** C6 (code as written): [_ZTV1A] ends where [_ZTV1B] begins.  For the
    word 0x402020, the address of [_ZTV1B], the bisection stops at
    [_ZTV1A] (its end is not below the word), the containment test on
    [_ZTV1A] fails, and no counter moves, although the greatest entry
    with address at most 0x402020 is [_ZTV1B] and contains the word.
    Words inside either table are counted for it. *)
Theorem scanWord_misses_start_of_adjacent_symbol :
  lower_bound vtables 4202528 = 0%nat /\
  scanWord vtableScan 65536 0 4202528 (vtables, []) = (vtables, []) /\
  spec_candidate vtables 4202528 = Some 1%nat /\
  spec_countWord vtables 4202528 = [vtableA; hit vtableB] /\
  scanWord vtableScan 65536 1 4202544 (vtables, []) = ([vtableA; hit vtableB], []) /\
  scanWord vtableScan 65536 2 4202512 (vtables, []) = ([hit vtableA; vtableB], []) /\
  scanSegment 2 sample_host (process_with [4202528; 4202544; 4202512]) vtableScan
              heap_segment {| listed := vtables; out := []; strbuf := [] |}
  = Some (Done {| listed := [hit vtableA; hit vtableB]; out := []; strbuf := [] |}).
Proof. repeat split; vm_compute; reflexivity. Qed.

(** [lower_bound] returns the partition point of a range that the
    comparison against [val] splits into a part below and a part not
    below. *)
Lemma lower_bound_loop_partition (val : Z) (l1 l2 : list ListedSymbol) :
  Forall (fun s => lt_addr s val = true) l1 ->
  Forall (fun s => lt_addr s val = false) l2 ->
  forall fuel first len,
    (len <= fuel)%nat ->
    (first <= length l1 <= first + len)%nat ->
    (first + len <= length (l1 ++ l2))%nat ->
    lower_bound_loop fuel (l1 ++ l2) first len val = length l1.
Proof.
  intros H1 H2. induction fuel as [| fuel IH]; intros first len Hfuel Hin Hlen.
  - cbn. lia.
  - destruct len as [| len']; [cbn; lia |]. cbn [lower_bound_loop].
    set (len := S len') in *.
    assert (Hhalf : (Nat.div2 len < len)%nat) by (apply Nat.lt_div2; unfold len; lia).
    clearbody len. generalize dependent (Nat.div2 len). intros half Hhalf.
    destruct (nth_error (l1 ++ l2) (first + half)) as [m |] eqn:Hm.
    + destruct (Nat.lt_ge_cases (first + half) (length l1)) as [Hlt | Hge].
      * rewrite nth_error_app1 in Hm by exact Hlt.
        apply nth_error_In in Hm.
        rewrite List.Forall_forall in H1. rewrite (H1 m Hm).
        apply IH; lia.
      * rewrite nth_error_app2 in Hm by exact Hge.
        apply nth_error_In in Hm.
        rewrite List.Forall_forall in H2. rewrite (H2 m Hm).
        apply IH; lia.
    + apply nth_error_None in Hm. lia.
Qed.

Lemma lower_bound_partition (val : Z) (l1 l2 : list ListedSymbol) :
  Forall (fun s => lt_addr s val = true) l1 ->
  Forall (fun s => lt_addr s val = false) l2 ->
  lower_bound (l1 ++ l2) val = length l1.
Proof.
  intros H1 H2. unfold lower_bound.
  apply lower_bound_loop_partition; try assumption; try lia.
  rewrite length_app. lia.
Qed.


(** The bisection stops at an entry that ends exactly at the word; that
    entry does not contain the word, and nothing is counted, whatever
    follows it in the list. *)
Lemma scanWord_stops_at_entry_ending_at_word (c : Config) (loc i w : Z)
      (l1 l2 : list ListedSymbol) (a : ListedSymbol) (o : list Output) :
  findRef c = false ->
  Forall (fun s' => lt_addr s' w = true) l1 ->
  Forall (fun s' => lt_addr s' w = false) l2 ->
  wrap (memaddr a + st_size (sym a)) = w ->
  scanWord c loc i w (l1 ++ a :: l2, o) = (l1 ++ a :: l2, o).
Proof.
  intros Href H1 H2 Hend. unfold scanWord. rewrite Href.
  assert (Ha : lt_addr a w = false) by (unfold lt_addr; apply Z.ltb_ge; lia).
  rewrite (lower_bound_partition w l1 (a :: l2) H1 (List.Forall_cons _ _ _ Ha H2)).
  rewrite nth_error_app2 by lia. rewrite Nat.sub_diag. cbn [nth_error].
  rewrite Hend. replace (w >? w) with false by (symmetry; rewrite Z.gtb_ltb; apply Z.ltb_irrefl).
  rewrite andb_false_r. reflexivity.
Qed.

(** ** The exit path *)

(** Every [return] of [mainExcept] returns 0. *)
Lemma mainExcept_returns_zero (fuel : nat) (h : Host) (opts : list Opt) (args : list string)
      (r : Z) (output : list Output) :
  mainExcept fuel h opts args = Some (Done (r, output)) -> r = 0.
Proof.
  unfold mainExcept.
  destruct (parseOptions opts initialConfig) as [[c |] | e | u]; try discriminate.
  - match goal with
    | |- match ?prepared with _ => _ end = _ -> _ =>
        destruct prepared as [[[[core process] c'] l] | e | u]; try discriminate
    end.
    destruct (scanSegments _ _ _ _ _ _) as [[st | e | u] |]; try discriminate.
    intros [= <- _]. reflexivity.
  - intros [= <- _]. reflexivity.
Qed.

(** An exception thrown while the executable or the core is opened
    leaves [mainExcept], whatever the options were. *)
Lemma mainExcept_core_unreadable (fuel : nat) (h : Host) (opts : list Opt) (c : Config)
      (core : string) (e : Error) :
  parseOptions opts initialConfig = Done (Some c) ->
  ElfObject_of_file (fs h) core = Throws e ->
  mainExcept fuel h opts [core] = Some (Throws e).
Proof.
  intros Hopts Hcore. unfold mainExcept. rewrite Hopts.
  change (2 <=? Z.of_nat (length [core])) with false.
  cbn [mbind Outcome_bind]. rewrite Hcore. reflexivity.
Qed.

(** C9 (as stated, refuted): a core file too short for an ELF header
    makes [main] return -1, which the parent sees as 255, not 1; an
    option outside the list is skipped and the run returns 0, not 2; and
    a run without arguments does not return at all. *)
Lemma main_never_returns_one_or_two :
  ElfObject_of_file (fs sample_host) "core.1234" = Throws ReadFailed /\
  main 0 sample_host [] ["core.1234"%string] = Some (Done (-1)) /\
  exit_status (-1) = 255 /\
  main 0 sample_host [Opt_other] ["core.1"%string] = Some (Done 0) /\
  main 0 sample_host [] [] = Some (Undefined NullDeref) /\
  main 0 sample_host [Opt_e 8192] ["core.1"%string] = Some (Undefined Abort).
Proof. repeat split. Qed.

(** C9 (amended): whenever [main] returns, it returns 0, when
    [mainExcept] returned (success, or [-h]), or -1, when an exception
    reached [main] (a failure to parse the executable or the core among
    them); it returns neither 1 nor 2. *)
Theorem main_returns_zero_or_minus_one (fuel : nat) (h : Host) (opts : list Opt)
        (args : list string) (r : Z) :
  main fuel h opts args = Some (Done r) ->
  (r = 0 /\ exists output, mainExcept fuel h opts args = Some (Done (0, output))) \/
  (r = -1 /\ exists e, mainExcept fuel h opts args = Some (Throws e)).
Proof.
  unfold main. destruct (mainExcept fuel h opts args) as [[[r' o] | e | u] |] eqn:Hm;
    try discriminate.
  - intros [= <-]. left. apply mainExcept_returns_zero in Hm as Hr. subst r'.
    split; [reflexivity | exists o; reflexivity].
  - intros [= <-]. right. split; [reflexivity | exists e; reflexivity].
Qed.

Lemma main_returns_zero_or_minus_one_witness :
  (-1 = 0 /\
   exists output, mainExcept 0 sample_host [] ["core.1234"%string] = Some (Done (0, output))) \/
  (-1 = -1 /\ exists e, mainExcept 0 sample_host [] ["core.1234"%string] = Some (Throws e)).
Proof.
  apply (main_returns_zero_or_minus_one 0 sample_host [] ["core.1234"%string] (-1)).
  reflexivity.
Defined.

(** ** Lookup by name: the hash accelerator against the linear scan *)

Lemma nth_error_map_seq {A} (f : nat -> A) (n : nat) :
  forall a k, (k < n)%nat -> nth_error (List.map f (seq a n)) k = Some (f (a + k)%nat).
Proof.
  induction n as [| n IH]; intros a k Hk; [lia |].
  destruct k as [| k]; cbn.
  - f_equal. f_equal. lia.
  - rewrite IH by lia. f_equal. f_equal. lia.
Qed.

Section HashLookup.

Variable h : ElfSymHash.
Variable ss : SymbolSection.
Variable tab : list (Elf_Sym * string).

Hypothesis Htab : collect (symbolsIn ss) = Done tab.

Lemma table_length : length tab = Z.to_nat (sym_count ss).
Proof using Htab.
  apply collect_Done in Htab. apply (f_equal (@length _)) in Htab.
  unfold symbolsIn in Htab. rewrite !length_map, length_seq in Htab. lia.
Qed.

(** What the reader delivers for entry [k] of the table. *)
Lemma table_reads (k : nat) (s : Elf_Sym) (nm : string) :
  nth_error tab k = Some (s, nm) ->
  readSym (sym_io ss) (wrap (sym_begin ss + Z.of_nat k * sizeof_Elf_Sym)) = Some s /\
  readString (sym_io ss) (wrap (st_name s + stroff ss)) = Some nm.
Proof using Htab.
  intros Hk.
  assert (Hlt : (k < length tab)%nat) by (apply nth_error_Some; rewrite Hk; discriminate).
  pose proof table_length as Hlen.
  pose proof (collect_Done _ _ Htab) as Hmap.
  apply (f_equal (fun l => nth_error l k)) in Hmap.
  unfold symbolsIn in Hmap. rewrite nth_error_map_seq in Hmap by lia.
  rewrite nth_error_map, Hk in Hmap. cbn in Hmap. injection Hmap as Hat.
  unfold symbolAt, SymbolIterator_deref in Hat.
  apply bind_Done in Hat as (s' & Hs & Hat).
  apply bind_Done in Hat as (nm' & Hn & Hat).
  injection Hat as <- <-.
  destruct (readSym _ _) as [s0 |]; [| discriminate]. injection Hs as ->.
  destruct (readString _ _) as [n0 |]; [| discriminate]. injection Hn as ->.
  split; reflexivity.
Qed.

Hypothesis Hwf : hashWellFormed h ss tab = true.

Lemma wf_parts :
  sh_offset (syms h) = sym_begin ss /\ strings h = stroff ss /\ 0 < nbucket h /\
  (forall i, (i < length tab)%nat -> chainInTable h (length tab) i = true) /\
  (forall i, (1 <= i < length tab)%nat -> symbolOnItsChain h tab i = true).
Proof using Hwf.
  unfold hashWellFormed in Hwf.
  repeat (apply andb_prop in Hwf as [Hwf ?]).
  repeat split.
  - apply Z.eqb_eq. assumption.
  - apply Z.eqb_eq. assumption.
  - apply Z.ltb_lt. assumption.
  - intros i Hi. match goal with
                 | H : forallb (chainInTable _ _) _ = true |- _ =>
                     rewrite forallb_forall in H; apply H
                 end.
    apply in_seq. lia.
  - intros i Hi. match goal with
                 | H : forallb (symbolOnItsChain _ _) _ = true |- _ =>
                     rewrite forallb_forall in H; apply H
                 end.
    apply in_seq. lia.
Qed.

(** Walking a chain that meets [j], the loop of [findSymbol] stops at an
    entry named like entry [j], at the latest at [j] itself. *)
Lemma findSymbol_walk_finds (j : nat) (s : Elf_Sym) (nm : string) :
  nth_error tab j = Some (s, nm) ->
  forall n i0,
    chainReaches n h i0 (Z.of_nat j) = true ->
    0 <= i0 < Z.of_nat (length tab) ->
    exists s',
      In (s', nm) tab /\
      forall fuel, (n <= fuel)%nat ->
        findSymbol_walk fuel (sym_io ss) h nm i0 = Some (Done (Some (s', nm))).
Proof using Htab Hwf.
  intros Hj. destruct wf_parts as (Hoff & Hstr & _ & Hchain & _).
  induction n as [| n IH]; intros i0 Hreach Hrange; [discriminate |].
  cbn [chainReaches] in Hreach.
  destruct (i0 =? STN_UNDEF) eqn:H0; [discriminate |].
  destruct (nth_error tab (Z.to_nat i0)) as [[s0 nm0] |] eqn:Hi0.
  2: { apply nth_error_None in Hi0. lia. }
  destruct (table_reads _ _ _ Hi0) as [Hrs Hrn].
  rewrite Z2Nat.id in Hrs by lia.
  destruct (String.eqb nm0 nm) eqn:Hname.
  - apply String.eqb_eq in Hname. subst nm0.
    exists s0. split; [eapply nth_error_In; exact Hi0 |].
    intros fuel Hfuel. destruct fuel as [| fuel]; [lia |].
    cbn [findSymbol_walk]. rewrite H0, Hoff, Hrs, Hstr, (Z.add_comm (stroff ss)), Hrn.
    rewrite String.eqb_refl. reflexivity.
  - assert (Hne : (i0 =? Z.of_nat j) = false).
    { apply Z.eqb_neq. intros ->. rewrite Nat2Z.id, Hj in Hi0.
      injection Hi0 as _ <-. rewrite String.eqb_refl in Hname. discriminate. }
    rewrite Hne in Hreach.
    pose proof (Hchain (Z.to_nat i0) ltac:(lia)) as Hc. unfold chainInTable in Hc.
    rewrite Z2Nat.id in Hc by lia.
    destruct (chains h i0) as [i' | |] eqn:Hnext; try discriminate.
    apply andb_prop in Hc as [Hc1 Hc2]. apply Z.leb_le in Hc1. apply Z.ltb_lt in Hc2.
    destruct (IH i' Hreach ltac:(lia)) as (s' & Hin & Hwalk).
    exists s'. split; [exact Hin |].
    intros fuel Hfuel. destruct fuel as [| fuel]; [lia |].
    cbn [findSymbol_walk]. rewrite H0, Hoff, Hrs, Hstr, (Z.add_comm (stroff ss)), Hrn.
    rewrite Hname, Hnext. apply Hwalk. lia.
Qed.

(** The linear scan stops at the first entry of the name. *)
Lemma linearSymSearch_loop_finds (nm : string) (s : Elf_Sym) :
  forall l, In (s, nm) l ->
    exists s', In (s', nm) l /\ linearSymSearch_loop (List.map Done l) nm = Done (Some s').
Proof.
  induction l as [| [s0 nm0] l IH]; intros Hin; [destruct Hin |].
  cbn. destruct (String.eqb nm nm0) eqn:Hname.
  - apply String.eqb_eq in Hname. subst nm0. exists s0. split; [left |]; reflexivity.
  - destruct Hin as [Heq | Hin].
    + injection Heq as _ <-. rewrite String.eqb_refl in Hname. discriminate.
    + destruct (IH Hin) as (s' & Hin' & Hs'). exists s'. split; [right; exact Hin' | exact Hs'].
Qed.

End HashLookup.

Lemma SymbolSection_new_io (sec : ElfSection) (ss : SymbolSection) :
  SymbolSection_new sec = Done ss -> sym_io ss = io (sec_obj sec).
Proof.
  unfold SymbolSection_new. destruct (sec_shdr sec).
  - intros H. apply bind_Done in H as (shdr & _ & H).
    apply bind_Done in H as (link & _ & H). injection H as <-. reflexivity.
  - intros [= <-]. reflexivity.
Qed.

(** C3 (as stated, refuted): the sample object has a well-formed hash
    section, and the empty name is present in [.dynsym] (the null symbol
    of index 0 bears it).  The linear scan finds that entry; the hash
    lookup, whose chains end at index 0, finds nothing. *)
Lemma hash_lookup_misses_null_symbol_name :
  hash sampleObject = Some sample_hash /\
  SymbolSection_new (getSection sampleObject ".dynsym" SHT_DYNSYM) = Done sample_dynsym_section /\
  collect (symbolsIn sample_dynsym_section) = Done sample_entries /\
  hashWellFormed sample_hash sample_dynsym_section sample_entries = true /\
  nth_error sample_entries 0 = Some (null_sym, EmptyString) /\
  linearSymSearch (getSection sampleObject ".dynsym" SHT_DYNSYM) EmptyString = Done (Some null_sym) /\
  (forall fuel, findSymbol (2 + fuel) (io sampleObject) sample_hash EmptyString = Some (Done None)).
Proof.
  split; [vm_compute; reflexivity |].
  split; [vm_compute; reflexivity |].
  split; [vm_compute; reflexivity |].
  split; [vm_compute; reflexivity |].
  split; [reflexivity |].
  split; [vm_compute; reflexivity |].
  intros fuel. vm_compute. reflexivity.
Qed.

(** C3 (amended): in an image whose SysV hash section is well formed
    for [.dynsym], for every name borne by a [.dynsym] entry other than
    the null symbol of index 0, the hash lookup (given enough iterations
    of its chain loop, the length of the table suffices) and the linear
    scan both succeed, each with an entry of [.dynsym] of that name; they
    return the same entry when the entries of that name are all equal. *)
Theorem hash_and_linear_lookup_agree
        (obj : ElfObject) (h : ElfSymHash) (ss : SymbolSection)
        (tab : list (Elf_Sym * string)) (j : nat) (s : Elf_Sym) (nm : string) :
  hash obj = Some h ->
  SymbolSection_new (getSection obj ".dynsym" SHT_DYNSYM) = Done ss ->
  collect (symbolsIn ss) = Done tab ->
  hashWellFormed h ss tab = true ->
  (1 <= j)%nat -> nth_error tab j = Some (s, nm) ->
  exists viaHash viaScan,
    (forall fuel, (length tab <= fuel)%nat ->
       findSymbol fuel (io obj) h nm = Some (Done (Some (viaHash, nm)))) /\
    linearSymSearch (getSection obj ".dynsym" SHT_DYNSYM) nm = Done (Some viaScan) /\
    In (viaHash, nm) tab /\ In (viaScan, nm) tab /\
    ((forall s1 s2, In (s1, nm) tab -> In (s2, nm) tab -> s1 = s2) -> viaHash = viaScan).
Proof.
  intros _ Hss Htab Hwf Hj Hnth.
  assert (Hjlt : (j < length tab)%nat) by (apply nth_error_Some; rewrite Hnth; discriminate).
  destruct (wf_parts h ss tab Hwf) as (_ & _ & Hnb & _ & Hon).
  pose proof (Hon j ltac:(lia)) as Hb. unfold symbolOnItsChain in Hb. rewrite Hnth in Hb.
  destruct (buckets h (elf_hash nm mod nbucket h)) as [b | |] eqn:Hbucket; try discriminate.
  apply andb_prop in Hb as [Hb Hreach]. apply andb_prop in Hb as [Hb0 Hb1].
  apply Z.leb_le in Hb0. apply Z.ltb_lt in Hb1.
  destruct (findSymbol_walk_finds h ss tab Htab Hwf j s nm Hnth _ b Hreach ltac:(lia))
    as (viaHash & HinH & Hwalk).
  destruct (linearSymSearch_loop_finds nm s tab (nth_error_In _ _ Hnth))
    as (viaScan & HinS & Hscan).
  exists viaHash, viaScan. repeat split.
  - intros fuel Hfuel. unfold findSymbol.
    replace (nbucket h =? 0) with false by (symmetry; apply Z.eqb_neq; lia).
    rewrite Hbucket. pose proof (SymbolSection_new_io _ _ Hss) as Hio.
    change (io (sec_obj (getSection obj ".dynsym" SHT_DYNSYM))) with (io obj) in Hio.
    rewrite <- Hio. apply Hwalk. exact Hfuel.
  - unfold linearSymSearch. rewrite Hss. cbn [mbind Outcome_bind].
    rewrite (collect_Done _ _ Htab). exact Hscan.
  - exact HinH.
  - exact HinS.
  - intros Huniq. apply Huniq; assumption.
Qed.

Lemma hash_and_linear_lookup_agree_witness :
  exists viaHash viaScan,
    (forall fuel, (length sample_entries <= fuel)%nat ->
       findSymbol fuel (io sampleObject) sample_hash "foo_alias"
       = Some (Done (Some (viaHash, "foo_alias"%string)))) /\
    linearSymSearch (getSection sampleObject ".dynsym" SHT_DYNSYM) "foo_alias"
    = Done (Some viaScan) /\
    In (viaHash, "foo_alias"%string) sample_entries /\
    In (viaScan, "foo_alias"%string) sample_entries /\
    ((forall s1 s2, In (s1, "foo_alias"%string) sample_entries ->
                    In (s2, "foo_alias"%string) sample_entries -> s1 = s2) ->
     viaHash = viaScan).
Proof.
  apply (hash_and_linear_lookup_agree sampleObject sample_hash sample_dynsym_section
                                      sample_entries 2 foo_alias_sym "foo_alias").
  - vm_compute. reflexivity.
  - vm_compute. reflexivity.
  - vm_compute. reflexivity.
  - vm_compute. reflexivity.
  - lia.
  - reflexivity.
Defined.

(** * Further properties of the ELF model *)

Import Further.

(** ** Segments *)

Lemma coversLoad_Covers (a : Z) (hdr : Elf_Phdr) :
  coversLoad a hdr = true <-> Covers a hdr.
Proof.
  unfold coversLoad, Covers. rewrite !andb_true_iff, Z.leb_le, Z.gtb_lt, Z.eqb_eq. tauto.
Qed.

(** X1: [findHeaderForAddress] returns the first program header, in
    table order, that is [PT_LOAD] and covers the address; it returns
    null exactly when no header does. *)
Theorem findHeaderForAddress_first_covering (obj : ElfObject) (a : Z) :
  match findHeaderForAddress obj a with
  | Some hdr =>
      Covers a hdr /\
      exists before after,
        programHeaders obj = before ++ hdr :: after /\
        forall h, In h before -> ~ Covers a h
  | None => forall h, In h (programHeaders obj) -> ~ Covers a h
  end.
Proof.
  unfold findHeaderForAddress.
  induction (programHeaders obj) as [| x l IH]; cbn.
  - intros h [].
  - destruct (coversLoad a x) eqn:Hx.
    + split; [apply coversLoad_Covers; exact Hx |].
      exists [], l. split; [reflexivity | intros h []].
    + assert (Hnx : ~ Covers a x).
      { intros Hc. apply coversLoad_Covers in Hc. congruence. }
      destruct (List.find (coversLoad a) l) as [hdr |].
      * destruct IH as (Hc & before & after & -> & Hb).
        split; [exact Hc |]. exists (x :: before), after.
        split; [reflexivity |]. intros h [<- | Hin]; [exact Hnx | apply Hb; exact Hin].
      * intros h [<- | Hin]; [exact Hnx | apply IH; exact Hin].
Qed.

Lemma getBase_step_comm (b : Z) (x y : Elf_Phdr) :
  getBase_step (getBase_step b x) y = getBase_step (getBase_step b y) x.
Proof.
  unfold getBase_step.
  destruct (p_type x =? PT_LOAD), (p_type y =? PT_LOAD); cbn [andb]; try reflexivity.
  destruct (Z.leb_spec (p_vaddr x) b), (Z.leb_spec (p_vaddr y) b);
    repeat match goal with
           | |- context [?u <=? ?v] => destruct (Z.leb_spec u v)
           end; lia.
Qed.

(** X2: [getBase] does not depend on the order of the program headers. *)
Theorem getBase_order_independent (obj obj' : ElfObject) :
  Permutation (programHeaders obj) (programHeaders obj') ->
  getBase obj = getBase obj'.
Proof.
  intros H. unfold getBase, getSegments. generalize Elf_Off_max.
  induction H as [| x l l' _ IH | x y l | l l' l'' _ IH1 _ IH2]; intros b; cbn.
  - reflexivity.
  - apply IH.
  - rewrite getBase_step_comm. reflexivity.
  - rewrite IH1. apply IH2.
Qed.

Lemma getBase_order_independent_witness :
  getBase twoSegments = getBase twoSegmentsSwapped.
Proof.
  apply (getBase_order_independent twoSegments twoSegmentsSwapped).
  apply perm_swap.
Defined.

(** X3: [getBase] is a lower bound of the [p_vaddr] of every [PT_LOAD]
    header, never exceeds the largest [Elf_Off], and is either that
    largest value or the [p_vaddr] of a [PT_LOAD] header of the image. *)
Theorem getBase_bounds (obj : ElfObject) :
  getBase obj <= Elf_Off_max /\
  (forall h, In h (programHeaders obj) -> p_type h = PT_LOAD -> getBase obj <= p_vaddr h) /\
  (getBase obj = Elf_Off_max \/
   exists h, In h (programHeaders obj) /\ p_type h = PT_LOAD /\ p_vaddr h = getBase obj).
Proof.
  unfold getBase, getSegments.
  destruct (getBase_fold (programHeaders obj) Elf_Off_max) as (Hle & Hlow & Hwit).
  cbv zeta in *. repeat split; assumption.
Qed.

(** ** Parsing *)

(** What a successful [init] went through. *)
Lemma init_inv (io_ : Reader) (name_ : string) (obj : ElfObject) :
  init io_ name_ = Done obj ->
  exists hdr phdrs shdrs,
    readEhdr io_ 0 = Some hdr /\
    readTable (readPhdr io_) (e_phoff hdr) (e_phentsize hdr) (Z.to_nat (e_phnum hdr)) = Done phdrs /\
    readTable (readShdr io_) (e_shoff hdr) (e_shentsize hdr) (Z.to_nat (e_shnum hdr)) = Done shdrs /\
    Elf.name obj = name_ /\ io obj = io_ /\ elfHeader obj = hdr /\
    programHeaders obj = phdrs /\ sectionHeaders obj = shdrs /\
    debugLoaded obj = false /\ debug obj = None /\
    (hash obj = None <-> sec_shdr (getSection obj ".hash" SHT_HASH) = None) /\
    ((e_shstrndx hdr = SHN_UNDEF /\ namedSection obj = ∅) \/
     (e_shstrndx hdr <> SHN_UNDEF /\
      exists sshdr,
        index shdrs (e_shstrndx hdr) = Done sshdr /\
        nameSections io_ sshdr shdrs 0 ∅ = Done (namedSection obj))).
Proof.
  unfold init. intros H.
  apply bind_Done in H as (hdr & Hh & H).
  destruct (readEhdr io_ 0) as [hdr' |]; [| discriminate]. injection Hh as ->.
  cbn [andb] in H.
  apply bind_Done in H as (phdrs & Hp & H).
  apply bind_Done in H as (shdrs & Hs & H).
  exists hdr, phdrs, shdrs. split; [reflexivity |]. split; [exact Hp |]. split; [exact Hs |].
  destruct (e_shstrndx hdr =? SHN_UNDEF) eqn:Hx; cbn [negb] in H.
  - injection H as <-. cbn. apply Z.eqb_eq in Hx.
    repeat split; try reflexivity. left. split; [exact Hx | reflexivity].
  - apply Z.eqb_neq in Hx.
    apply bind_Done in H as (sshdr & Hi & H).
    apply bind_Done in H as (named & Hn & H).
    cbv zeta in H.
    destruct (sec_shdr (getSection _ ".hash" SHT_HASH)) as [i |] eqn:Htab.
    + apply bind_Done in H as (h & _ & H). injection H as <-. cbn.
      repeat split; try reflexivity.
      * intros [=].
      * unfold getSection, localSection in Htab |- *. cbn in Htab |- *.
        rewrite Htab. intros [=].
      * right. split; [exact Hx |]. exists sshdr. split; assumption.
    + injection H as <-. cbn.
      repeat split; try reflexivity.
      * intros _. exact Htab.
      * right. split; [exact Hx |]. exists sshdr. split; assumption.
Qed.

Lemma readTable_nth {A} (rd : Z -> option A) (stride : Z) (n : nat) :
  forall off l,
    readTable rd off stride n = Done l ->
    forall k, (k < n)%nat -> rd (tableOffset off stride k) = nth_error l k.
Proof.
  induction n as [| n IH]; intros off l H k Hk; [lia |].
  cbn [readTable] in H.
  apply bind_Done in H as (x & Hx & H).
  apply bind_Done in H as (rest & Hrest & H). injection H as <-.
  destruct (rd off) as [x' |] eqn:Hoff; [| discriminate]. injection Hx as ->.
  destruct k as [| k]; [exact Hoff |].
  cbn [nth_error]. rewrite <- (IH _ _ Hrest k) by lia.
  f_equal. unfold tableOffset. destruct k as [| k].
  - f_equal. lia.
  - unfold wrap. rewrite Zplus_mod_idemp_l. f_equal. lia.
Qed.

(** X4: after a successful [init] the object holds exactly what the
    reader delivers: the header at offset 0, [e_phnum] program headers
    and [e_shnum] section headers, entry [k] of each table being the
    record at the table's offset advanced [k] times by the entry size
    (modulo the width of [size_t]); no companion is recorded. *)
Theorem init_stores_what_the_reader_delivers (io_ : Reader) (name_ : string) (obj : ElfObject) :
  init io_ name_ = Done obj ->
  io obj = io_ /\ Elf.name obj = name_ /\
  readEhdr io_ 0 = Some (elfHeader obj) /\
  length (programHeaders obj) = Z.to_nat (e_phnum (elfHeader obj)) /\
  length (sectionHeaders obj) = Z.to_nat (e_shnum (elfHeader obj)) /\
  (forall k, (k < length (programHeaders obj))%nat ->
     readPhdr io_ (tableOffset (e_phoff (elfHeader obj)) (e_phentsize (elfHeader obj)) k)
     = nth_error (programHeaders obj) k) /\
  (forall k, (k < length (sectionHeaders obj))%nat ->
     readShdr io_ (tableOffset (e_shoff (elfHeader obj)) (e_shentsize (elfHeader obj)) k)
     = nth_error (sectionHeaders obj) k) /\
  debugLoaded obj = false /\ debug obj = None.
Proof.
  intros H. apply init_inv in H
    as (hdr & phdrs & shdrs & Hh & Hp & Hs & Hn & Hio & -> & -> & -> & Hl & Hd & _ & _).
  pose proof (readTable_length _ _ _ _ _ Hp) as Hlp.
  pose proof (readTable_length _ _ _ _ _ Hs) as Hls.
  repeat split; try assumption.
  - intros k Hk. eapply readTable_nth; [exact Hp | lia].
  - intros k Hk. eapply readTable_nth; [exact Hs | lia].
Qed.

Lemma init_stores_what_the_reader_delivers_witness :
  io sampleObject = sample [sample_load] /\
  Elf.name sampleObject = "/usr/lib/libsample.so"%string /\
  readEhdr (sample [sample_load]) 0 = Some (elfHeader sampleObject) /\
  length (programHeaders sampleObject) = Z.to_nat (e_phnum (elfHeader sampleObject)) /\
  length (sectionHeaders sampleObject) = Z.to_nat (e_shnum (elfHeader sampleObject)) /\
  (forall k, (k < length (programHeaders sampleObject))%nat ->
     readPhdr (sample [sample_load])
              (tableOffset (e_phoff (elfHeader sampleObject))
                           (e_phentsize (elfHeader sampleObject)) k)
     = nth_error (programHeaders sampleObject) k) /\
  (forall k, (k < length (sectionHeaders sampleObject))%nat ->
     readShdr (sample [sample_load])
              (tableOffset (e_shoff (elfHeader sampleObject))
                           (e_shentsize (elfHeader sampleObject)) k)
     = nth_error (sectionHeaders sampleObject) k) /\
  debugLoaded sampleObject = false /\ debug sampleObject = None.
Proof.
  apply (init_stores_what_the_reader_delivers (sample [sample_load]) "/usr/lib/libsample.so").
  vm_compute. reflexivity.
Defined.

Section NameTable.

Variable rd : Reader.
Variable sshdr : Elf_Shdr.

(** The map [nameSections] builds binds a name to the last header that
    bears it, and otherwise keeps what it held. *)
Lemma nameSections_lookup (hs : list Elf_Shdr) :
  forall i0 m m',
    nameSections rd sshdr hs i0 m = Done m' ->
    forall nm i,
      m' !! nm = Some i <->
      ((exists k h, i = (i0 + k)%nat /\ nth_error hs k = Some h /\ nameOf rd sshdr h = Some nm /\
                    forall j h', (k < j)%nat -> nth_error hs j = Some h' -> nameOf rd sshdr h' <> Some nm)
       \/ (m !! nm = Some i /\
           forall j h', nth_error hs j = Some h' -> nameOf rd sshdr h' <> Some nm)).
Proof.
  induction hs as [| h rest IH]; intros i0 m m' H nm i.
  - injection H as <-. split.
    + intros Hm. right. split; [exact Hm |]. intros j h' Hj. destruct j; discriminate.
    + intros [(k & h & _ & Hk & _) | [Hm _]]; [destruct k; discriminate | exact Hm].
  - cbn [nameSections] in H. apply bind_Done in H as (nm0 & Hnm0 & H).
    assert (Hh : nameOf rd sshdr h = Some nm0).
    { unfold nameOf. destruct (readString rd _); [| discriminate]. injection Hnm0 as ->.
      reflexivity. }
    clear Hnm0. rewrite (IH _ _ _ H nm i). clear IH H. split.
    + intros [(k & h1 & -> & Hk & Hn & Hlater) | [Hm Hnone]].
      * left. exists (S k), h1. repeat split; [lia | exact Hk | exact Hn |].
        intros j h' Hj Hnth. destruct j as [| j]; [lia |]. eapply Hlater; [| exact Hnth]. lia.
      * destruct (decide (nm0 = nm)) as [-> | Hne].
        -- rewrite lookup_insert_eq in Hm. injection Hm as <-.
           left. exists 0%nat, h. repeat split; [lia | exact Hh |].
           intros j h' Hj Hnth. destruct j as [| j]; [lia |]. eapply Hnone. exact Hnth.
        -- rewrite lookup_insert_ne in Hm by exact Hne.
           right. split; [exact Hm |].
           intros j h' Hnth. destruct j as [| j].
           ++ injection Hnth as <-. rewrite Hh. congruence.
           ++ eapply Hnone. exact Hnth.
    + intros [(k & h1 & -> & Hk & Hn & Hlater) | [Hm Hnone]].
      * destruct k as [| k].
        -- injection Hk as <-. assert (nm0 = nm) as -> by congruence.
           right. split.
           ++ rewrite lookup_insert_eq. f_equal. lia.
           ++ intros j h' Hnth. apply (Hlater (S j) h'); [lia | exact Hnth].
        -- left. exists k, h1. repeat split; [lia | exact Hk | exact Hn |].
           intros j h' Hj Hnth. apply (Hlater (S j) h'); [lia | exact Hnth].
      * right. split.
        -- rewrite lookup_insert_ne; [exact Hm |].
           intros ->. apply (Hnone 0%nat h); [reflexivity | exact Hh].
        -- intros j h' Hnth. apply (Hnone (S j) h'). exact Hnth.
Qed.

End NameTable.

(** X5: after a successful [init] of an image with a section-name
    table, the name map binds a name to index [i] exactly when section
    [i] exists, the reader's name for it is that name, and no later
    section has the same name: a mapped index is always a valid section,
    and of several sections of one name the last one wins. *)
Theorem init_name_map (io_ : Reader) (name_ : string) (obj : ElfObject) :
  init io_ name_ = Done obj ->
  e_shstrndx (elfHeader obj) <> SHN_UNDEF ->
  forall nm i,
    namedSection obj !! nm = Some i <->
    (sectionName obj i = Some nm /\ forall j, (i < j)%nat -> sectionName obj j <> Some nm).
Proof.
  intros H Hx nm i. apply init_inv in H
    as (hdr & phdrs & shdrs & _ & _ & _ & _ & Hio & Hhdr & _ & Hsh & _ & _ & _ & Hcase).
  rewrite Hhdr in Hx. destruct Hcase as [[Hu _] | (_ & sshdr & Hidx & Hnames)]; [contradiction |].
  apply index_Done in Hidx as [_ Hidx].
  rewrite (nameSections_lookup _ _ _ _ _ _ Hnames nm i).
  unfold sectionName. rewrite Hsh, Hhdr, Hidx, Hio. split.
  - intros [(k & h & -> & Hk & Hn & Hlater) | [Hm _]].
    + cbn [Nat.add]. rewrite Hk. split; [exact Hn |].
      intros j Hj. destruct (nth_error shdrs j) as [h' |] eqn:Hnj; [| discriminate].
      eapply Hlater; [exact Hj | exact Hnj].
    + rewrite lookup_empty in Hm. discriminate.
  - intros [Hn Hlater]. left.
    destruct (nth_error shdrs i) as [h |] eqn:Hi; [| discriminate].
    exists i, h. split; [reflexivity |]. split; [exact Hi |]. split; [exact Hn |].
    intros j h' Hj Hnj. specialize (Hlater j Hj). rewrite Hnj in Hlater. exact Hlater.
Qed.

Lemma init_name_map_witness :
  namedSection sampleObject !! ".dynsym"%string = Some 2%nat <->
  (sectionName sampleObject 2 = Some ".dynsym"%string /\
   forall j, (2 < j)%nat -> sectionName sampleObject j <> Some ".dynsym"%string).
Proof.
  refine (init_name_map (sample [sample_load]) "/usr/lib/libsample.so" sampleObject _ _
                        ".dynsym"%string 2%nat).
  - vm_compute. reflexivity.
  - vm_compute. discriminate.
Defined.

(** ** Section lookup *)


(** X7: an image whose [e_shstrndx] is [SHN_UNDEF] is parsed without a
    name map, so that no section is found by name and every symbol
    lookup, by address or by name, reports "not found" without reading a
    symbol. *)
Theorem init_without_name_table (io_ : Reader) (name_ : string) (obj : ElfObject) :
  init io_ name_ = Done obj ->
  e_shstrndx (elfHeader obj) = SHN_UNDEF ->
  namedSection obj = ∅ /\ hash obj = None /\
  (forall nm type, sec_shdr (getSection obj nm type) = None) /\
  (forall addr type, findSymbolByAddress obj addr type = Done (false, None)) /\
  (forall fuel nm, findSymbolByName fuel obj nm = Some (Done None)).
Proof.
  intros H Hx. apply init_inv in H
    as (hdr & phdrs & shdrs & _ & _ & _ & _ & _ & Hhdr & _ & _ & _ & _ & Hhash & Hcase).
  rewrite Hhdr in Hx. destruct Hcase as [[_ Hm] | [Hne _]]; [| contradiction].
  assert (Hsec : forall nm type, sec_shdr (getSection obj nm type) = None).
  { intros nm type. unfold getSection, getDebug, localSection. cbn [fst sec_shdr].
    rewrite Hm, lookup_empty. reflexivity. }
  assert (Hh : hash obj = None) by (apply Hhash, Hsec).
  repeat split; try assumption.
  - intros addr type. unfold findSymbolByAddress, sectionNames.
    cbn [findSymbolByAddress_tables]. rewrite !Hsec. reflexivity.
  - intros fuel nm. unfold findSymbolByName, linearIn. rewrite Hh, !Hsec. reflexivity.
Qed.

Lemma init_without_name_table_witness :
  namedSection bareObject = ∅ /\ hash bareObject = None /\
  (forall nm type, sec_shdr (getSection bareObject nm type) = None) /\
  (forall addr type, findSymbolByAddress bareObject addr type = Done (false, None)) /\
  (forall fuel nm, findSymbolByName fuel bareObject nm = Some (Done None)).
Proof.
  apply (init_without_name_table companion "/usr/lib/debug/usr/lib/libsample.so.debug").
  - vm_compute. reflexivity.
  - reflexivity.
Defined.

(** ** The hash accelerator *)

Lemma ElfSymHash_new_inv (hash_ : ElfSection) (h : ElfSymHash) :
  ElfSymHash_new hash_ = Done h ->
  exists shdr strhdr,
    shdrOf hash_ = Done shdr /\
    index (sectionHeaders (sec_obj hash_)) (sh_link shdr) = Done (syms h) /\
    index (sectionHeaders (sec_obj hash_)) (sh_link (syms h)) = Done strhdr /\
    strings h = sh_offset strhdr /\
    readWords (io (sec_obj hash_)) (sh_offset shdr) (sh_size shdr / sizeof_Elf_Word)
    = Some (data h) /\
    index (data h) 0 = Done (nbucket h) /\ index (data h) 1 = Done (nchain h).
Proof.
  unfold ElfSymHash_new. intros H.
  apply bind_Done in H as (symhdr & Hlink & H).
  apply bind_Done in H as (shdr & Hshdr & H).
  apply bind_Done in H as (d & Hd & H).
  apply bind_Done in H as (nb & Hnb & H).
  apply bind_Done in H as (nc & Hnc & H).
  apply bind_Done in H as (strhdr & Hstr & H).
  injection H as <-. cbn [syms data nbucket nchain strings].
  unfold getLink in Hlink. rewrite Hshdr in Hlink. cbn [mbind Outcome_bind] in Hlink.
  destruct (readWords _ _ _) as [d' |] eqn:Hw; [| discriminate]. injection Hd as ->.
  exists shdr, strhdr. repeat split; assumption.
Qed.

(** X8: after a successful [init] the accelerator is present exactly
    when the name map has a section [.hash] of type [SHT_HASH]; its
    table is then the words the reader delivers for that section, at
    least two of them, the first being [nbucket] and the second
    [nchain], and [syms] is the section its [sh_link] names. *)
Theorem init_hash_accelerator (io_ : Reader) (name_ : string) (obj : ElfObject) :
  init io_ name_ = Done obj ->
  match hash obj with
  | None => sec_shdr (getSection obj ".hash" SHT_HASH) = None
  | Some h =>
      exists i shdr,
        sec_shdr (getSection obj ".hash" SHT_HASH) = Some i /\
        nth_error (sectionHeaders obj) i = Some shdr /\ sh_type shdr = SHT_HASH /\
        readWords (io obj) (sh_offset shdr) (sh_size shdr / sizeof_Elf_Word) = Some (data h) /\
        nth_error (data h) 0 = Some (nbucket h) /\ nth_error (data h) 1 = Some (nchain h) /\
        nth_error (sectionHeaders obj) (Z.to_nat (sh_link shdr)) = Some (syms h)
  end.
Proof.
  unfold init. intros H.
  apply bind_Done in H as (hdr & _ & H). cbn [andb] in H.
  apply bind_Done in H as (phdrs & _ & H).
  apply bind_Done in H as (shdrs & _ & H).
  destruct (negb (e_shstrndx hdr =? SHN_UNDEF)).
  - apply bind_Done in H as (sshdr & _ & H).
    apply bind_Done in H as (named & _ & H).
    cbv zeta in H.
    set (obj0 := mkElfObject name_ io_ hdr phdrs shdrs named None false None) in *.
    destruct (sec_shdr (getSection obj0 ".hash" SHT_HASH)) as [i |] eqn:Htab.
    + apply bind_Done in H as (h & Hnew & H). injection H as <-.
      cbn [hash with_hash].
      apply ElfSymHash_new_inv in Hnew
        as (shdr & strhdr & Hshdr & Hsyms & _ & _ & Hwords & Hnb & Hnc).
      unfold shdrOf in Hshdr. rewrite Htab in Hshdr.
      apply index_Done in Hshdr as [_ Hshdr]. rewrite Nat2Z.id in Hshdr.
      apply index_Done in Hsyms as [_ Hsyms].
      apply index_Done in Hnb as [_ Hnb]. apply index_Done in Hnc as [_ Hnc].
      exists i, shdr.
      assert (Hty : sh_type shdr = SHT_HASH).
      { pose proof Htab as Hl. unfold getSection, getDebug, localSection in Hl.
        cbn [fst sec_shdr sectionHeaders namedSection obj0] in Hl.
        destruct (named !! ".hash"%string) as [k |]; [| discriminate].
        destruct (nth_error shdrs k) as [h' |] eqn:Hk; [| discriminate].
        destruct ((sh_type h' =? SHT_HASH) || (SHT_HASH =? SHT_NULL)) eqn:Ht; [| discriminate].
        injection Hl as ->. cbn in Hshdr. rewrite Hshdr in Hk. injection Hk as <-.
        apply orb_prop in Ht as [Ht | Ht]; [apply Z.eqb_eq, Ht | discriminate]. }
      cbn in Hshdr.
      repeat split; assumption.
    + injection H as <-. exact Htab.
  - injection H as <-. reflexivity.
Qed.

Lemma init_hash_accelerator_witness :
  match hash sampleObject with
  | None => sec_shdr (getSection sampleObject ".hash" SHT_HASH) = None
  | Some h =>
      exists i shdr,
        sec_shdr (getSection sampleObject ".hash" SHT_HASH) = Some i /\
        nth_error (sectionHeaders sampleObject) i = Some shdr /\ sh_type shdr = SHT_HASH /\
        readWords (io sampleObject) (sh_offset shdr) (sh_size shdr / sizeof_Elf_Word)
        = Some (data h) /\
        nth_error (data h) 0 = Some (nbucket h) /\ nth_error (data h) 1 = Some (nchain h) /\
        nth_error (sectionHeaders sampleObject) (Z.to_nat (sh_link shdr)) = Some (syms h)
  end.
Proof.
  apply (init_hash_accelerator (sample [sample_load]) "/usr/lib/libsample.so").
  vm_compute. reflexivity.
Defined.

(** X9: a hash section of fewer than two words makes the constructor of
    the accelerator index its table past the end: [nbucket] or [nchain]
    is read from a word that is not there. *)
Theorem ElfSymHash_new_short_table (hash_ : ElfSection) (symhdr shdr : Elf_Shdr) (d : list Z) :
  getLink hash_ = Done symhdr ->
  shdrOf hash_ = Done shdr ->
  readWords (io (sec_obj hash_)) (sh_offset shdr) (sh_size shdr / sizeof_Elf_Word) = Some d ->
  (length d < 2)%nat ->
  ElfSymHash_new hash_ =
  Undefined (OutOfBounds (Z.of_nat (length d)) (Z.of_nat (length d))).
Proof.
  intros Hlink Hshdr Hd Hlen. unfold ElfSymHash_new.
  rewrite Hlink. cbn [mbind Outcome_bind]. rewrite Hshdr. cbn [mbind Outcome_bind].
  rewrite Hd. cbn [orThrow mbind Outcome_bind].
  destruct d as [| w0 [| w1 d]]; [reflexivity | reflexivity | cbn in Hlen; lia].
Qed.

Lemma ElfSymHash_new_short_table_witness :
  ElfSymHash_new {| sec_obj := shortHashObject; sec_shdr := Some 4%nat |} =
  Undefined (OutOfBounds (Z.of_nat (length [2])) (Z.of_nat (length [2]))) /\
  ElfObject_of_reader shortHash = Undefined (OutOfBounds 1 1).
Proof.
  split.
  - apply (ElfSymHash_new_short_table {| sec_obj := shortHashObject; sec_shdr := Some 4%nat |}
             {| sh_name := 7; sh_type := 11; sh_flags := 2; sh_offset := 4000;
                sh_size := 96; sh_link := 3 |}
             {| sh_name := 23; sh_type := 5; sh_flags := 2; sh_offset := 5000;
                sh_size := 4; sh_link := 2 |} [2]).
    + vm_compute. reflexivity.
    + vm_compute. reflexivity.
    + vm_compute. reflexivity.
    + cbn. lia.
  - vm_compute. reflexivity.
Defined.

Lemma findSymbol_walk_sound (rd : Reader) (h : ElfSymHash) (nm : string) (fuel : nat) :
  forall i s nm',
    findSymbol_walk fuel rd h nm i = Some (Done (Some (s, nm'))) ->
    nm' = nm /\
    exists j, j <> STN_UNDEF /\
              readSym rd (wrap (sh_offset (syms h) + j * sizeof_Elf_Sym)) = Some s /\
              readString rd (wrap (strings h + st_name s)) = Some nm.
Proof.
  induction fuel as [| fuel IH]; intros i s nm' H; [discriminate |].
  cbn [findSymbol_walk] in H.
  destruct (i =? STN_UNDEF) eqn:H0; [discriminate |]. apply Z.eqb_neq in H0.
  destruct (readSym rd _) as [candidate |] eqn:Hs; [| discriminate].
  destruct (readString rd _) as [candidateName |] eqn:Hn; [| discriminate].
  destruct (String.eqb candidateName nm) eqn:He.
  - injection H as <- <-. apply String.eqb_eq in He. subst candidateName.
    split; [reflexivity |]. exists i. repeat split; assumption.
  - destruct (chains h i) as [i' | |]; try discriminate. eapply IH, H.
Qed.

(** X10: when the hash lookup reports a symbol, the name it hands back
    is the name asked for, and the symbol is the entry the reader
    delivers at a non-zero index of the table [syms], whose name in the
    string table is that name. *)
Theorem findSymbol_sound (fuel : nat) (rd : Reader) (h : ElfSymHash) (nm : string)
        (s : Elf_Sym) (nm' : string) :
  findSymbol fuel rd h nm = Some (Done (Some (s, nm'))) ->
  nm' = nm /\ nbucket h <> 0 /\
  exists j, j <> STN_UNDEF /\
            readSym rd (wrap (sh_offset (syms h) + j * sizeof_Elf_Sym)) = Some s /\
            readString rd (wrap (strings h + st_name s)) = Some nm.
Proof.
  unfold findSymbol. destruct (nbucket h =? 0) eqn:Hb; [discriminate |].
  apply Z.eqb_neq in Hb.
  destruct (buckets h _) as [i | |]; try discriminate.
  intros H. apply findSymbol_walk_sound in H as [Hn Hj]. repeat split; assumption.
Qed.

Lemma findSymbol_sound_witness :
  "bar"%string = "bar"%string /\ nbucket sample_hash <> 0 /\
  exists j, j <> STN_UNDEF /\
            readSym (io sampleObject) (wrap (sh_offset (syms sample_hash) + j * sizeof_Elf_Sym))
            = Some bar_sym /\
            readString (io sampleObject) (wrap (strings sample_hash + st_name bar_sym))
            = Some "bar"%string.
Proof.
  apply (findSymbol_sound 4 (io sampleObject) sample_hash "bar" bar_sym "bar").
  vm_compute. reflexivity.
Defined.

(** X11: the chain walk has no bound of its own.  If the chain that
    starts in the bucket of the name stays within a set of non-zero
    indices whose entries are readable and bear other names, the lookup
    does not end, however many iterations it is given. *)
Theorem findSymbol_endless_chain (rd : Reader) (h : ElfSymHash) (nm : string)
        (onCycle : Z -> Prop) (start : Z) :
  nbucket h <> 0 ->
  buckets h (elf_hash nm mod nbucket h) = Done start ->
  onCycle start ->
  (forall i, onCycle i ->
     i <> STN_UNDEF /\
     (exists s cn,
        readSym rd (wrap (sh_offset (syms h) + i * sizeof_Elf_Sym)) = Some s /\
        readString rd (wrap (strings h + st_name s)) = Some cn /\ cn <> nm) /\
     exists i', chains h i = Done i' /\ onCycle i') ->
  forall fuel, findSymbol fuel rd h nm = None.
Proof.
  intros Hnb Hstart Hon Hcycle fuel. unfold findSymbol.
  replace (nbucket h =? 0) with false by (symmetry; apply Z.eqb_neq; exact Hnb).
  rewrite Hstart. clear Hstart. revert start Hon.
  induction fuel as [| fuel IH]; intros i Hi; [reflexivity |].
  destruct (Hcycle i Hi) as (H0 & (s & cn & Hs & Hn & Hne) & i' & Hnext & Hi').
  cbn [findSymbol_walk].
  replace (i =? STN_UNDEF) with false by (symmetry; apply Z.eqb_neq; exact H0).
  rewrite Hs, Hn.
  replace (String.eqb cn nm) with false by (symmetry; apply String.eqb_neq; exact Hne).
  rewrite Hnext. apply IH, Hi'.
Qed.

Lemma findSymbol_endless_chain_witness :
  findSymbol 1000 (io sampleObject) loopHash "bar" = None.
Proof.
  refine (findSymbol_endless_chain (io sampleObject) loopHash "bar" (fun i => i = 1) 1
                                   _ _ _ _ 1000%nat).
  - vm_compute. discriminate.
  - vm_compute. reflexivity.
  - reflexivity.
  - intros i ->. split; [discriminate |]. split.
    + exists foo_sym, "foo"%string. split; [vm_compute; reflexivity |].
      split; [vm_compute; reflexivity | discriminate].
    + exists 1. split; [vm_compute; reflexivity | reflexivity].
Defined.

(** ** Lookup by name *)

Lemma linearSymSearch_loop_app (l : list (Elf_Sym * string))
      (rest : list (Outcome (Elf_Sym * string))) (nm : string) :
  linearSymSearch_loop (List.map Done l ++ rest) nm =
  match List.find (named nm) l with
  | Some e => Done (Some (fst e))
  | None => linearSymSearch_loop rest nm
  end.
Proof.
  induction l as [| e l IH]; [reflexivity |].
  cbn [List.map app linearSymSearch_loop List.find mbind Outcome_bind].
  unfold named at 1. destruct (String.eqb nm (snd e)); [reflexivity | exact IH].
Qed.

(** X12: the linear scan returns the first entry, in table order, whose
    name is the one asked for, and does not read the entries behind it
    (a read that would fail there does no harm); it reports "not found"
    when the whole table was read and no entry bears the name. *)
Theorem linearSymSearch_loop_first (l : list (Elf_Sym * string))
        (rest : list (Outcome (Elf_Sym * string))) (nm : string) :
  linearSymSearch_loop (List.map Done l ++ rest) nm =
  match List.find (named nm) l with
  | Some e => Done (Some (fst e))
  | None => linearSymSearch_loop rest nm
  end /\
  (List.find (named nm) l = None -> linearSymSearch_loop (List.map Done l) nm = Done None).
Proof.
  split; [apply linearSymSearch_loop_app |].
  intros Hf. rewrite <- (app_nil_r (List.map Done l)), linearSymSearch_loop_app, Hf.
  reflexivity.
Qed.

Lemma linearIn_entries (obj : ElfObject) (table : string) (type : Z)
      (l : list (Elf_Sym * string)) (nm : string) :
  namedEntries obj table type = Done l ->
  linearIn obj table type nm = Done (option_map fst (List.find (named nm) l)).
Proof.
  unfold namedEntries, linearIn. cbv zeta.
  destruct (sec_shdr (getSection obj table type)).
  - intros H. apply bind_Done in H as (ss & Hss & H). apply collect_Done in H.
    unfold linearSymSearch. rewrite Hss. cbn [mbind Outcome_bind]. rewrite H.
    rewrite <- (app_nil_r (List.map Done l)), linearSymSearch_loop_app.
    destruct (List.find (named nm) l); reflexivity.
  - intros [= <-]. reflexivity.
Qed.

(** X13: without a hash accelerator (an image that only has
    [.gnu.hash], say) [findSymbolByName] is a linear search of [.dynsym]
    followed by [.symtab]: it returns the first entry of that name in
    this order, so a [.dynsym] entry wins over a [.symtab] entry of the
    same name, and reports "not found" when neither table has one. *)
Theorem findSymbolByName_without_hash (obj : ElfObject) (d t : list (Elf_Sym * string))
        (fuel : nat) (nm : string) :
  hash obj = None ->
  namedEntries obj ".dynsym" SHT_DYNSYM = Done d ->
  namedEntries obj ".symtab" SHT_SYMTAB = Done t ->
  findSymbolByName fuel obj nm = Some (Done (option_map fst (List.find (named nm) (d ++ t)))).
Proof.
  intros Hh Hd Ht. unfold findSymbolByName. rewrite Hh.
  rewrite (linearIn_entries _ _ _ _ nm Hd), (linearIn_entries _ _ _ _ nm Ht).
  rewrite find_app_first. cbn [mbind Outcome_bind].
  destruct (List.find (named nm) d); reflexivity.
Qed.

Lemma findSymbolByName_without_hash_witness :
  findSymbolByName 0 gnuHashObject "foo_alias" =
  Some (Done (option_map fst (List.find (named "foo_alias") (sample_entries ++ [])))).
Proof.
  apply (findSymbolByName_without_hash gnuHashObject sample_entries [] 0 "foo_alias").
  - vm_compute. reflexivity.
  - vm_compute. reflexivity.
  - vm_compute. reflexivity.
Defined.

(** ** Lookup by address *)

Section AddressSearch.

Variable obj : ElfObject.
Variables addr type : Z.

(** The body of the inner loop, by cases. *)
Lemma examine_cases (st : AddrSearch) (c : Elf_Sym * string) :
  examine obj addr type st c =
  if exactMatch obj addr type c then ReturnTrue c
  else Continue (stubStep obj addr type st c).
Proof.
  unfold examine, exactMatch, stubStep, isStub, isCandidate, inAllocatedSection.
  rewrite Z.geb_leb, (Z.leb_antisym (st_shndx (fst c))),
    (Z.gtb_ltb (st_value (fst c)) addr), (Z.leb_antisym addr).
  destruct (st_shndx (fst c) <? Z.of_nat (length (sectionHeaders obj))); cbn [negb andb];
    [| reflexivity].
  destruct (nth_error (sectionHeaders obj) (Z.to_nat (st_shndx (fst c)))) as [shdr |];
    [| reflexivity].
  destruct (Z.land (sh_flags shdr) SHF_ALLOC =? 0); cbn [negb andb]; [reflexivity |].
  destruct (type =? STT_NOTYPE), (ELF_ST_TYPE (st_info (fst c)) =? type);
    cbn [negb andb orb]; try reflexivity;
    destruct (addr <? st_value (fst c)); cbn [negb andb]; try reflexivity;
    destruct (st_size (fst c) =? 0); cbn [negb andb]; try reflexivity;
    try (destruct (lowest st <? st_value (fst c)); reflexivity);
    destruct (wrap (st_size (fst c) + st_value (fst c)) >? addr); reflexivity.
Qed.

Lemma stubStep_invariant (st : AddrSearch) (c : Elf_Sym * string) :
  searchInvariant obj addr type st ->
  searchInvariant obj addr type (stubStep obj addr type st c).
Proof.
  intros [H0 Hh]. unfold stubStep.
  destruct (isStub obj addr type c) eqn:Hs; cbn [andb]; [| split; assumption].
  destruct (lowest st <? st_value (fst c)) eqn:Hlt; [| split; assumption].
  apply Z.ltb_lt in Hlt. split; cbn; [lia |]. repeat split; [lia | exact Hs].
Qed.

Lemma examineAll_invariant (syms : list (Outcome (Elf_Sym * string))) :
  forall st r,
    searchInvariant obj addr type st ->
    examineAll obj addr type st syms = Done r ->
    match r with
    | ReturnTrue c => exactMatch obj addr type c = true
    | Continue st' => searchInvariant obj addr type st'
    end.
Proof.
  induction syms as [| x syms IH]; intros st r Hinv H.
  - injection H as <-. exact Hinv.
  - cbn [examineAll] in H. apply bind_Done in H as (c & -> & H).
    rewrite examine_cases in H. destruct (exactMatch obj addr type c) eqn:Hc.
    + injection H as <-. exact Hc.
    + eapply IH; [| exact H]. apply stubStep_invariant, Hinv.
Qed.

Lemma tables_invariant (names : list string) :
  forall st r,
    searchInvariant obj addr type st ->
    findSymbolByAddress_tables obj addr type st names = Done r ->
    match r with
    | ReturnTrue c => exactMatch obj addr type c = true
    | Continue st' => searchInvariant obj addr type st'
    end.
Proof.
  induction names as [| nm rest IH]; intros st r Hinv H.
  - injection H as <-. exact Hinv.
  - cbn [findSymbolByAddress_tables] in H. cbv zeta in H.
    destruct (sec_shdr (getSection obj nm SHT_NULL)); [| eapply IH; eassumption].
    apply bind_Done in H as (shdr & _ & H).
    destruct (sh_type shdr =? SHT_NOBITS); [eapply IH; eassumption |].
    apply bind_Done in H as (ss & _ & H).
    apply bind_Done in H as (r1 & Hr1 & H).
    pose proof (examineAll_invariant _ _ _ Hinv Hr1) as Hr.
    destruct r1 as [c | st1].
    + injection H as <-. exact Hr.
    + eapply IH; eassumption.
Qed.

End AddressSearch.

(** X14: whatever the tables hold, when [findSymbolByAddress] returns,
    it returns true exactly when it has written the out-parameters, and
    the symbol written lies in an allocated section, is of the requested
    kind (or the kind requested is the wildcard), has [st_value] not
    above the address, and either has a size and contains the address or
    has no size and a non-zero [st_value]. *)
Theorem findSymbolByAddress_sound (obj : ElfObject) (addr type : Z) (b : bool)
        (r : option (Elf_Sym * string)) :
  findSymbolByAddress obj addr type = Done (b, r) ->
  match r with
  | None => b = false
  | Some c =>
      b = true /\ isCandidate obj addr type c = true /\
      ((st_size (fst c) <> 0 /\ addr < wrap (st_size (fst c) + st_value (fst c))) \/
       (st_size (fst c) = 0 /\ 0 < st_value (fst c)))
  end.
Proof.
  unfold findSymbolByAddress. intros H. apply bind_Done in H as (res & Hres & H).
  assert (Hinit : searchInvariant obj addr type {| lowest := 0; held := None |})
    by (split; cbn; [lia | reflexivity]).
  pose proof (tables_invariant obj addr type _ _ _ Hinit Hres) as Hr.
  destruct res as [c | st].
  - injection H as <- <-. split; [reflexivity |].
    unfold exactMatch in Hr. unfold isCandidate.
    repeat (apply andb_prop in Hr as [Hr ?]).
    split; [repeat (apply andb_true_intro; split); assumption |].
    left. split.
    + match goal with Hs : negb (_ =? 0) = true |- _ =>
        apply negb_true_iff, Z.eqb_neq in Hs; exact Hs end.
    + apply Z.gtb_lt. assumption.
  - injection H as <- <-. destruct Hr as [H0 Hh].
    destruct (held st) as [c |].
    + destruct Hh as (Hpos & Heq & Hs). unfold isStub in Hs.
      apply andb_prop in Hs as [Hc Hz]. apply Z.eqb_eq in Hz.
      split; [apply negb_true_iff, Z.eqb_neq; lia |].
      split; [exact Hc |]. right. split; [exact Hz | lia].
    + rewrite Hh. reflexivity.
Qed.

Lemma findSymbolByAddress_sound_witness :
  true = true /\ isCandidate sampleObject 4120 0 (bar_sym, "bar"%string) = true /\
  ((st_size (fst (bar_sym, "bar"%string)) <> 0 /\
    4120 < wrap (st_size (fst (bar_sym, "bar"%string)) + st_value (fst (bar_sym, "bar"%string))))
   \/ (st_size (fst (bar_sym, "bar"%string)) = 0 /\ 0 < st_value (fst (bar_sym, "bar"%string)))).
Proof.
  apply (findSymbolByAddress_sound sampleObject 4120 0 true (Some (bar_sym, "bar"%string))).
  vm_compute. reflexivity.
Defined.

Section StubSearch.

Variable obj : ElfObject.
Variables addr type : Z.

Lemma examineAll_no_exact (l : list (Elf_Sym * string)) :
  forall st,
    List.find (exactMatch obj addr type) l = None ->
    examineAll obj addr type st (List.map Done l)
    = Done (Continue (fold_left (stubStep obj addr type) l st)).
Proof.
  induction l as [| c l IH]; intros st Hf; [reflexivity |].
  cbn [List.find] in Hf. destruct (exactMatch obj addr type c) eqn:Hc; [discriminate |].
  cbn [List.map examineAll mbind Outcome_bind fold_left].
  rewrite examine_cases, Hc. apply IH, Hf.
Qed.

Lemma tables_no_exact (names : list string) :
  forall l st,
    entriesOf obj names = Done l ->
    List.find (exactMatch obj addr type) l = None ->
    findSymbolByAddress_tables obj addr type st names
    = Done (Continue (fold_left (stubStep obj addr type) l st)).
Proof.
  induction names as [| nm rest IH]; intros l st H Hf;
    cbn [findSymbolByAddress_tables entriesOf] in *.
  - injection H as <-. reflexivity.
  - apply bind_Done in H as (a & Ha & H).
    apply bind_Done in H as (b & Hb & H). injection H as <-.
    rewrite find_app_first in Hf.
    destruct (List.find (exactMatch obj addr type) a) eqn:Hfa; [discriminate |].
    rewrite fold_left_app. unfold tableEntries in Ha. cbv zeta in *.
    destruct (sec_shdr (getSection obj nm SHT_NULL)).
    + apply bind_Done in Ha as (shdr & Hsh & Ha). rewrite Hsh. cbn [mbind Outcome_bind].
      destruct (sh_type shdr =? SHT_NOBITS).
      * injection Ha as <-. apply IH; assumption.
      * apply bind_Done in Ha as (ss & Hss & Ha). rewrite Hss. cbn [mbind Outcome_bind].
        apply collect_Done in Ha. rewrite Ha, (examineAll_no_exact a st Hfa).
        cbn [mbind Outcome_bind]. apply IH; assumption.
    + injection Ha as <-. apply IH; assumption.
Qed.

(** The search state after a run over [l]: the entry held, if any, is a
    stub of [l] or the one held before, and no stub of [l] has a greater
    [st_value] than [lowest]. *)
Lemma stub_fold (l : list (Elf_Sym * string)) :
  forall st,
    let st' := fold_left (stubStep obj addr type) l st in
    lowest st <= lowest st' /\
    (forall c, In c l -> isStub obj addr type c = true -> st_value (fst c) <= lowest st') /\
    (held st' = held st /\ lowest st' = lowest st \/
     exists c, held st' = Some c /\ In c l /\ lowest st' = st_value (fst c)).
Proof.
  induction l as [| x l IH]; intros st; cbn [fold_left].
  - split; [lia |]. split; [intros c [] | left; split; reflexivity].
  - specialize (IH (stubStep obj addr type st x)). cbv zeta in IH.
    destruct IH as (Hle & Hmax & Hheld).
    set (st1 := stubStep obj addr type st x) in *.
    assert (Hstep : lowest st <= lowest st1 /\
                    (isStub obj addr type x = true -> st_value (fst x) <= lowest st1) /\
                    (held st1 = held st /\ lowest st1 = lowest st \/
                     held st1 = Some x /\ lowest st1 = st_value (fst x))).
    { unfold st1, stubStep. destruct (isStub obj addr type x); cbn [andb].
      - destruct (Z.ltb_spec (lowest st) (st_value (fst x))); cbn.
        + repeat split; [lia | lia | right; split; reflexivity].
        + repeat split; [lia | lia | left; split; reflexivity].
      - repeat split; [lia | discriminate | left; split; reflexivity]. }
    destruct Hstep as (Hs1 & Hs2 & Hs3).
    split; [lia |]. split.
    + intros c [<- | Hin] Hc; [specialize (Hs2 Hc); lia | apply Hmax; assumption].
    + destruct Hheld as [[Hh Hl] | (c & Hh & Hin & Hl)].
      * destruct Hs3 as [[Hh3 Hl3] | [Hh3 Hl3]].
        -- left. split; congruence.
        -- right. exists x. split; [congruence |]. split; [left; reflexivity | congruence].
      * right. exists c. split; [exact Hh |]. split; [right; exact Hin | exact Hl].
Qed.

End StubSearch.

(** X15: when the tables read without error and no entry is an exact
    match, the fallback is the size-less candidate of the greatest
    [st_value]: the search returns true with such an entry of the
    tables, and returns false, writing nothing, exactly when no
    size-less candidate has a [st_value] above zero. *)
Theorem findSymbolByAddress_stub (obj : ElfObject) (addr type : Z)
        (l : list (Elf_Sym * string)) :
  scannedSymbols obj = Done l ->
  List.find (exactMatch obj addr type) l = None ->
  exists b r,
    findSymbolByAddress obj addr type = Done (b, r) /\
    match r with
    | Some c =>
        b = true /\ In c l /\ isStub obj addr type c = true /\ 0 < st_value (fst c) /\
        forall c', In c' l -> isStub obj addr type c' = true ->
                   st_value (fst c') <= st_value (fst c)
    | None =>
        b = false /\
        forall c', In c' l -> isStub obj addr type c' = true -> st_value (fst c') <= 0
    end.
Proof.
  intros Hl Hf. unfold findSymbolByAddress.
  rewrite (tables_no_exact obj addr type sectionNames l _ Hl Hf). cbn [mbind Outcome_bind].
  destruct (stub_fold obj addr type l {| lowest := 0; held := None |}) as (Hle & Hmax & Hheld).
  cbv zeta in *.
  set (st' := fold_left (stubStep obj addr type) l {| lowest := 0; held := None |}) in *.
  cbn [lowest held] in *.
  exists (negb (lowest st' =? 0)), (held st'). split; [reflexivity |].
  destruct Hheld as [[Hh Hlow] | (c & Hh & Hin & Hlow)].
  - rewrite Hh, Hlow. split; [reflexivity |]. rewrite Hlow in Hmax. exact Hmax.
  - rewrite Hh.
    assert (Hinv : searchInvariant obj addr type st').
    { pose proof (tables_invariant obj addr type sectionNames
                    {| lowest := 0; held := None |} (Continue st')) as Ht.
      apply Ht; [split; cbn; [lia | reflexivity] |].
      apply (tables_no_exact obj addr type sectionNames l _ Hl Hf). }
    destruct Hinv as [_ Hinv]. rewrite Hh in Hinv. destruct Hinv as (Hpos & Heq & Hs).
    split; [apply negb_true_iff, Z.eqb_neq; lia |].
    split; [exact Hin |]. split; [exact Hs |]. split; [lia |].
    intros c' Hin' Hs'. specialize (Hmax c' Hin' Hs'). lia.
Qed.

Lemma findSymbolByAddress_stub_witness :
  exists b r,
    findSymbolByAddress strippedObject 4660 0 = Done (b, r) /\
    match r with
    | Some c =>
        b = true /\ In c [(null_sym, EmptyString); (init_sym, "_init"%string)] /\
        isStub strippedObject 4660 0 c = true /\ 0 < st_value (fst c) /\
        forall c', In c' [(null_sym, EmptyString); (init_sym, "_init"%string)] ->
                   isStub strippedObject 4660 0 c' = true ->
                   st_value (fst c') <= st_value (fst c)
    | None =>
        b = false /\
        forall c', In c' [(null_sym, EmptyString); (init_sym, "_init"%string)] ->
                   isStub strippedObject 4660 0 c' = true -> st_value (fst c') <= 0
    end.
Proof.
  apply (findSymbolByAddress_stub strippedObject 4660 0).
  - vm_compute. reflexivity.
  - vm_compute. reflexivity.
Defined.

(** ** The hash function *)

Lemma below_pow2_of_bits (x n : Z) :
  0 <= n -> 0 <= x -> (forall k, n <= k -> Z.testbit x k = false) -> x < 2 ^ n.
Proof.
  intros Hn Hx Hbits.
  assert (Heq : x = x mod 2 ^ n).
  { apply Z.bits_inj'. intros k Hk.
    destruct (Z.lt_ge_cases k n) as [Hlt | Hge].
    - rewrite Z.mod_pow2_bits_low by lia. reflexivity.
    - rewrite Z.mod_pow2_bits_high by lia. apply Hbits. exact Hge. }
  rewrite Heq. apply Z.mod_pos_bound. apply Z.pow_pos_nonneg; lia.
Qed.

Lemma mask_bit (k : Z) :
  0 <= k -> Z.testbit 4026531840 k = ((28 <=? k) && (k <? 32)).
Proof.
  intros Hk. destruct (Z.lt_ge_cases k 32) as [Hlt | Hge].
  - assert (Hcases : exists n : nat, (n < 32)%nat /\ k = Z.of_nat n)
      by (exists (Z.to_nat k); lia).
    destruct Hcases as (n & Hn & ->).
    do 32 (destruct n as [| n]; [reflexivity |]). lia.
  - replace (k <? 32) with false by (symmetry; apply Z.ltb_ge; exact Hge).
    rewrite andb_false_r. apply Z.bits_above_log2; [lia |].
    change (Z.log2 4026531840) with 31. lia.
Qed.

Lemma elf_hash_step_bound (h : Z) (c : ascii) : 0 <= elf_hash_step h c < 2 ^ 28.
Proof.
  unfold elf_hash_step.
  set (h0 := wrap32 (Z.shiftl h 4 + char_value c)).
  set (g := Z.land h0 4026531840).
  set (hx := if negb (g =? 0) then Z.lxor h0 (Z.shiftr g 24) else h0).
  assert (Hh0 : 0 <= h0 < 2 ^ 32) by (apply Z.mod_pos_bound; reflexivity).
  assert (Hm : 0 <= wrap32 (Z.lnot g) < 2 ^ 32) by (apply Z.mod_pos_bound; reflexivity).
  assert (Hnn : 0 <= Z.land hx (wrap32 (Z.lnot g))) by (apply Z.land_nonneg; right; lia).
  split; [exact Hnn |].
  apply below_pow2_of_bits; [lia | exact Hnn |].
  intros k Hk. rewrite Z.land_spec.
  destruct (Z.lt_ge_cases k 32) as [Hlt | Hge].
  - assert (Hgk : Z.testbit g k = Z.testbit h0 k).
    { unfold g. rewrite Z.land_spec, mask_bit by lia.
      replace (28 <=? k) with true by (symmetry; apply Z.leb_le; lia).
      replace (k <? 32) with true by (symmetry; apply Z.ltb_lt; lia).
      apply andb_true_r. }
    assert (Hmk : Z.testbit (wrap32 (Z.lnot g)) k = negb (Z.testbit h0 k)).
    { unfold wrap32. rewrite Z.mod_pow2_bits_low by lia.
      rewrite Z.lnot_spec by lia. rewrite Hgk. reflexivity. }
    assert (Hxk : Z.testbit hx k = Z.testbit h0 k).
    { unfold hx. destruct (negb (g =? 0)); [| reflexivity].
      rewrite Z.lxor_spec, Z.shiftr_spec by lia.
      unfold g at 1. rewrite Z.land_spec, mask_bit by lia.
      replace (k + 24 <? 32) with false by (symmetry; apply Z.ltb_ge; lia).
      rewrite andb_false_r, andb_false_r. apply xorb_false_r. }
    rewrite Hmk, Hxk. apply andb_negb_r.
  - unfold wrap32. rewrite Z.mod_pow2_bits_high by lia. apply andb_false_r.
Qed.

(** X16: [elf_hash] always clears the top four bits of its 32-bit
    accumulator: the hash of every name lies in [0, 2^28), and the empty
    name hashes to 0. *)
Theorem elf_hash_below_2_28 (nm : string) :
  0 <= elf_hash nm < 2 ^ 28 /\ elf_hash EmptyString = 0.
Proof.
  split; [| reflexivity]. unfold elf_hash.
  assert (H : forall l h, 0 <= h < 2 ^ 28 -> 0 <= fold_left elf_hash_step l h < 2 ^ 28).
  { induction l as [| c l IH]; intros h Hh; [exact Hh |].
    cbn [fold_left]. apply IH, elf_hash_step_bound. }
  apply H. lia.
Qed.

(** * Further properties of the scanner *)

(** ** Glob matching *)

Lemma c_str_String (c : ascii) (s : string) (behind : list ascii) :
  c_str (String c s) behind = c :: c_str s behind.
Proof. reflexivity. Qed.

Lemma plain_String (c : ascii) (s : string) :
  plain (String c s) -> Ascii.eqb c NUL = false /\ Ascii.eqb c "*" = false /\ plain s.
Proof.
  intros [Hn Hs]. cbn in Hn, Hs. repeat split.
  - apply Ascii.eqb_neq. intros ->. apply Hn. left. reflexivity.
  - apply Ascii.eqb_neq. intros ->. apply Hs. left. reflexivity.
  - intros H. apply Hn. right. exact H.
  - intros H. apply Hs. right. exact H.
Qed.

Lemma nulFree_String (c : ascii) (s : string) :
  nulFree (String c s) -> Ascii.eqb c NUL = false /\ nulFree s.
Proof.
  intros Hn. cbn in Hn. split.
  - apply Ascii.eqb_neq. intros ->. apply Hn. left. reflexivity.
  - intros H. apply Hn. right. exact H.
Qed.

(** X17: a pattern without ['*'] matches exactly the name equal to it,
    and the comparison never reads behind the terminator of the name:
    the answer is the same whatever the memory behind the name holds. *)
Theorem globmatch_literal (pattern name : string) (behind : list ascii) :
  plain pattern -> nulFree name ->
  globmatch pattern name behind = Done (String.eqb pattern name).
Proof.
  unfold globmatch. revert name.
  induction pattern as [| a p IH]; intros n Hp Hn.
  - destruct n as [| c n]; [reflexivity |].
    apply nulFree_String in Hn as [Hc _].
    rewrite c_str_String. cbn [c_str list_ascii_of_string app globmatchR].
    change (Ascii.eqb NUL "*") with false. cbn [String.eqb]. rewrite Hc. reflexivity.
  - apply plain_String in Hp as (Ha & Hs & Hp).
    rewrite c_str_String. cbn [globmatchR]. rewrite Hs.
    destruct n as [| c n].
    + cbn [c_str list_ascii_of_string app String.eqb].
      rewrite (Ascii.eqb_sym NUL a), Ha. reflexivity.
    + apply nulFree_String in Hn as [Hc Hn].
      rewrite c_str_String. cbn [String.eqb]. rewrite (Ascii.eqb_sym c a).
      destruct (Ascii.eqb a c) eqn:Hac; cbn [negb]; [| reflexivity].
      rewrite Ha. apply IH; assumption.
Qed.

Lemma globmatch_literal_witness :
  globmatch "_ZTV1C" "_ZTV1C" ["x"%char] = Done (String.eqb "_ZTV1C" "_ZTV1C").
Proof.
  apply (globmatch_literal "_ZTV1C" "_ZTV1C" ["x"%char]).
  - split; cbn; intros H; repeat (destruct H as [H | H]; [discriminate |]); exact H.
  - cbn. intros H; repeat (destruct H as [H | H]; [discriminate |]); exact H.
Defined.

(** X18: a literal prefix followed by ['*'] accepts exactly the names
    that extend the prefix by at least one character: for every name
    other than the prefix itself the answer is whether the prefix is a
    prefix of the name, and it does not depend on the memory behind the
    name. *)
Theorem globmatch_prefix_pattern (prefix_ name : string) (behind : list ascii) :
  plain prefix_ -> nulFree name -> name <> prefix_ ->
  globmatch (prefix_ +:+ "*") name behind = Done (String.prefix prefix_ name).
Proof.
  unfold globmatch. revert name.
  induction prefix_ as [| a p IH]; intros n Hp Hn Hne.
  - destruct n as [| c n]; [contradiction |].
    apply nulFree_String in Hn as [_ Hn].
    change (c_str (EmptyString +:+ "*") []) with ["*"%char; NUL].
    rewrite c_str_String. unfold c_str.
    apply (globmatchR_star_nonempty (list_ascii_of_string n) behind). exact Hn.
  - apply plain_String in Hp as (Ha & Hs & Hp).
    change (String a p +:+ "*")%string with (String a (p +:+ "*")).
    rewrite c_str_String. cbn [globmatchR]. rewrite Hs.
    destruct n as [| c n].
    + cbn [c_str list_ascii_of_string app String.prefix].
      rewrite (Ascii.eqb_sym NUL a), Ha. reflexivity.
    + apply nulFree_String in Hn as [Hc Hn].
      rewrite c_str_String. cbn [String.prefix].
      destruct (ascii_dec a c) as [-> | Hac].
      * rewrite Ascii.eqb_refl. cbn [negb]. rewrite Hc.
        apply IH; [assumption | assumption |]. intros ->. apply Hne. reflexivity.
      * replace (Ascii.eqb c a) with false; [reflexivity |].
        symmetry. apply Ascii.eqb_neq. intros ->. apply Hac. reflexivity.
Qed.

Lemma globmatch_prefix_pattern_witness :
  globmatch ("_ZTV" +:+ "*") "_ZTVN3foo3BarE" [] = Done (String.prefix "_ZTV" "_ZTVN3foo3BarE").
Proof.
  apply (globmatch_prefix_pattern "_ZTV" "_ZTVN3foo3BarE" []).
  - split; cbn; intros H; repeat (destruct H as [H | H]; [discriminate |]); exact H.
  - cbn. intros H; repeat (destruct H as [H | H]; [discriminate |]); exact H.
  - discriminate.
Defined.

Lemma globmatchR_plain_self (s : string) (behind : list ascii) :
  plain s -> globmatchR (c_str s []) (c_str s behind) = Done true.
Proof.
  induction s as [| a s IH]; intros Hp; [reflexivity |].
  apply plain_String in Hp as (Ha & Hs & Hp).
  rewrite !c_str_String. cbn [globmatchR]. rewrite Hs, Ascii.eqb_refl, Ha. cbn [negb].
  apply IH, Hp.
Qed.

(** X19: a pattern that starts with ['*'] makes the matcher step over
    the terminator of an empty name.  With no readable byte behind the
    terminator the read leaves memory; and when the bytes behind it
    spell the rest of a literal pattern, the empty name is reported as a
    match. *)
Theorem globmatch_leading_star_empty_name (rest : string) :
  globmatch (String "*" rest) EmptyString [] = Undefined ReadPastEnd /\
  (plain rest -> globmatch (String "*" rest) EmptyString (c_str rest []) = Done true).
Proof.
  split.
  - unfold globmatch. rewrite c_str_String. unfold c_str.
    cbn [list_ascii_of_string app globmatchR Ascii.eqb Bool.eqb].
    destruct (list_ascii_of_string rest ++ [NUL]) as [| x l] eqn:Hl.
    + destruct (list_ascii_of_string rest); discriminate.
    + cbn [globmatchR]. destruct (Ascii.eqb x "*"); reflexivity.
  - intros Hp. unfold globmatch. rewrite c_str_String.
    change (c_str EmptyString (c_str rest [])) with (NUL :: c_str rest []).
    cbn [globmatchR Ascii.eqb Bool.eqb].
    rewrite (globmatchR_plain_self rest [] Hp). reflexivity.
Qed.

(** ** The symbol list and the sweep *)

(** X20: on a list that the comparison against [val] splits into
    entries that end below [val] followed by entries that do not,
    [lower_bound] returns the position of the first entry that does not
    end below [val] (the length of the list if there is none). *)
Theorem lower_bound_partition_point (val : Z) (below rest : list ListedSymbol) :
  Forall (fun s => endaddr s < val) below ->
  Forall (fun s => val <= endaddr s) rest ->
  lower_bound (below ++ rest) val = length below /\
  nth_error (below ++ rest) (lower_bound (below ++ rest) val) = nth_error rest 0.
Proof.
  intros H1 H2.
  assert (Hlb : lower_bound (below ++ rest) val = length below).
  { apply lower_bound_partition.
    - eapply List.Forall_impl; [| exact H1]. intros s Hs. apply Z.ltb_lt. exact Hs.
    - eapply List.Forall_impl; [| exact H2]. intros s Hs. apply Z.ltb_ge. exact Hs. }
  split; [exact Hlb |]. rewrite Hlb, nth_error_app2 by lia. rewrite Nat.sub_diag. reflexivity.
Qed.

Lemma lower_bound_partition_point_witness :
  lower_bound ([vtableA] ++ [vtableB]) 4202544 = length [vtableA] /\
  nth_error ([vtableA] ++ [vtableB]) (lower_bound ([vtableA] ++ [vtableB]) 4202544)
  = nth_error [vtableB] 0.
Proof.
  apply (lower_bound_partition_point 4202544 [vtableA] [vtableB]).
  - constructor; [vm_compute; reflexivity | constructor].
  - constructor; [vm_compute; discriminate | constructor].
Defined.

(** X21: in the vtable scan a word changes the list only by one
    increment of the counter of one entry, and only of an entry whose
    range, as the code computes it, holds the word; without [-s] nothing
    is printed. *)
Theorem scanWord_counts_only_a_containing_entry (c : Config) (loc i w : Z)
        (l l' : list ListedSymbol) (o o' : list Output) :
  findRef c = false ->
  scanWord c loc i w (l, o) = (l', o') ->
  (l' = l /\ o' = o) \/
  exists k s,
    nth_error l k = Some s /\ memaddr s <= w < endaddr s /\
    l' = alter hit k l /\
    o' = if showaddrs c
         then o ++ [PrintHit (name s) (wrap (w - memaddr s)) (wrap (loc + i * sizeof_pointer))]
         else o.
Proof.
  intros Href. unfold scanWord. rewrite Href.
  destruct (nth_error l (lower_bound l w)) as [f |] eqn:Hf.
  - destruct ((memaddr f <=? w) && (wrap (memaddr f + st_size (sym f)) >? w)) eqn:Hin.
    + intros [= <- <-]. right. exists (lower_bound l w), f.
      apply andb_prop in Hin as [Hlo Hhi]. apply Z.leb_le in Hlo. apply Z.gtb_lt in Hhi.
      repeat split; assumption.
    + intros [= <- <-]. left. split; reflexivity.
  - intros [= <- <-]. left. split; reflexivity.
Qed.

Lemma scanWord_counts_only_a_containing_entry_witness :
  ([vtableA; hit vtableB] = vtables /\ @nil Output = []) \/
  exists k s,
    nth_error vtables k = Some s /\ memaddr s <= 4202544 < endaddr s /\
    [vtableA; hit vtableB] = alter hit k vtables /\
    @nil Output =
      if showaddrs vtableScan
      then [] ++ [PrintHit (name s) (wrap (4202544 - memaddr s))
                           (wrap (65536 + 1 * sizeof_pointer))]
      else [].
Proof.
  apply (scanWord_counts_only_a_containing_entry vtableScan 65536 1 4202544 vtables _ [] []).
  - reflexivity.
  - vm_compute. reflexivity.
Defined.

Lemma identity_hit (s : ListedSymbol) : identity (hit s) = identity s.
Proof. reflexivity. Qed.

Lemma identity_alter_hit (k : nat) (l : list ListedSymbol) :
  List.map identity (alter hit k l) = List.map identity l.
Proof.
  revert k. induction l as [| x l IH]; intros k; [reflexivity |].
  destruct k as [| k]; cbn; [reflexivity |]. f_equal. apply IH.
Qed.

Lemma scanWord_identity (c : Config) (loc i w : Z) (st : list ListedSymbol * list Output) :
  List.map identity (fst (scanWord c loc i w st)) = List.map identity (fst st).
Proof.
  destruct st as [l o]. unfold scanWord.
  destruct (findRef c).
  - destruct (_ && _); reflexivity.
  - destruct (nth_error l (lower_bound l w)) as [f |]; [| reflexivity].
    destruct (_ && _); [| reflexivity]. cbn [fst]. apply identity_alter_hit.
Qed.

(** X22: the sweep of a page never adds, removes or reorders listed
    symbols and never alters a symbol, its base, its name or its object:
    only counters change, so the list stays sorted by address for the
    bisection of the next word. *)
Theorem scanWords_keeps_the_list (c : Config) (loc : Z) (words : list Z) :
  forall i st,
    List.map identity (fst (scanWords c loc i words st)) = List.map identity (fst st) /\
    List.map memaddr (fst (scanWords c loc i words st)) = List.map memaddr (fst st) /\
    length (fst (scanWords c loc i words st)) = length (fst st).
Proof.
  assert (Hid : forall i st,
             List.map identity (fst (scanWords c loc i words st)) = List.map identity (fst st)).
  { induction words as [| p rest IH]; intros i st; [reflexivity |].
    cbn [scanWords]. rewrite IH. apply scanWord_identity. }
  intros i st. specialize (Hid i st). split; [exact Hid |]. split.
  - apply (f_equal (List.map (fun x : Elf_Sym * Z * string * string =>
                                wrap (st_value (fst (fst (fst x))) + snd (fst (fst x)))))) in Hid.
    rewrite !List.map_map in Hid. exact Hid.
  - apply (f_equal (@length _)) in Hid. rewrite !length_map in Hid. exact Hid.
Qed.



(** X24: in the address-range search the sweep of a page leaves every
    counter alone and writes one line for each word of the page that
    lies in [minval, maxval) and is a multiple of 4, and no other line;
    words are 64-bit values compared unsigned. *)
Theorem scanWords_findRef_lines (c : Config) (loc i : Z) (words : list Z)
        (l : list ListedSymbol) (o : list Output) :
  findRef c = true ->
  fst (scanWords c loc i words (l, o)) = l /\
  exists lines,
    snd (scanWords c loc i words (l, o)) = o ++ lines /\
    length lines = length (List.filter (inSearchedRange c) words) /\
    (forall p, In p (List.filter (inSearchedRange c) words) <->
               In p words /\ minval c <= p < maxval c /\ p mod 4 = 0).
Proof.
  intros Href. rewrite scanWords_findRef by exact Href. split; [reflexivity |].
  eexists. split; [reflexivity |]. split; [apply length_map |].
  intros p. rewrite filter_In. unfold inSearchedRange.
  rewrite !andb_true_iff, Z.geb_leb, Z.leb_le, Z.ltb_lt, Z.eqb_eq. tauto.
Qed.

Lemma scanWords_findRef_lines_witness :
  fst (scanWords refSearch 65536 0 [4096; 8192; 4100] ([], [])) = [] /\
  exists lines,
    snd (scanWords refSearch 65536 0 [4096; 8192; 4100] ([], [])) = [] ++ lines /\
    length lines = length (List.filter (inSearchedRange refSearch) [4096; 8192; 4100]) /\
    (forall p, In p (List.filter (inSearchedRange refSearch) [4096; 8192; 4100]) <->
               In p [4096; 8192; 4100] /\
               minval refSearch <= p < maxval refSearch /\ p mod 4 = 0).
Proof.
  apply (scanWords_findRef_lines refSearch 65536 0 [4096; 8192; 4100] [] []).
  reflexivity.
Defined.

(** ** The literal-string search *)

Lemma addresses_S (start : Z) (n : nat) :
  addresses start (S n) = start :: addresses (start + 1) n.
Proof.
  unfold addresses. cbn [seq List.map]. f_equal; [lia |].
  rewrite <- seq_shift, List.map_map. apply List.map_ext. intros k. lia.
Qed.

Lemma scanString_step (fuel : nat) (proc : Process) (needle : list ascii) (limit loc : Z)
      (strbuf : list ascii) (out : list Output) :
  scanString (S fuel) proc needle limit loc strbuf out =
  if loc <? limit then
    match read proc loc (Z.of_nat (length needle)) with
    | None => Some (Throws ReadFailed)
    | Some got =>
        let strbuf := firstn (length needle) (got ++ skipn (length got) strbuf) in
        let out := if decide (strbuf = needle) then out ++ [PrintAddress loc] else out in
        scanString fuel proc needle limit (wrap (loc + 1)) strbuf out
    end
  else Some (Done (strbuf, out)).
Proof. reflexivity. Qed.

(** X25: when every read in the range delivers as many bytes as the
    needle has, the literal search writes exactly the addresses
    [start <= a < limit] at which the bytes read equal the needle, in
    ascending order, and ends after [limit - start] iterations. *)
Theorem scanString_reports_matches (proc : Process) (needle : list ascii) (n : nat) :
  forall (start : Z) (strbuf : list ascii) (out : list Output),
    0 <= start -> start + Z.of_nat n < modulus ->
    (forall a, start <= a < start + Z.of_nat n ->
       exists got, read proc a (Z.of_nat (length needle)) = Some got /\
                   length got = length needle) ->
    exists buf,
      scanString (S n) proc needle (start + Z.of_nat n) start strbuf out
      = Some (Done (buf, out ++ List.map PrintAddress
                                         (List.filter (needleAt proc needle)
                                                      (addresses start n)))).
Proof.
  induction n as [| n IH]; intros start strbuf out H0 Hfit Hread.
  - exists strbuf. cbn [scanString].
    replace (start <? start + Z.of_nat 0) with false by (symmetry; apply Z.ltb_ge; lia).
    cbn. rewrite app_nil_r. reflexivity.
  - destruct (Hread start ltac:(lia)) as (got & Hgot & Hlen).
    rewrite scanString_step. cbv zeta.
    replace (start <? start + Z.of_nat (S n)) with true by (symmetry; apply Z.ltb_lt; lia).
    rewrite Hgot.
    assert (Hbuf : firstn (length needle) (got ++ skipn (length got) strbuf) = got).
    { rewrite <- Hlen. rewrite firstn_app, Nat.sub_diag, firstn_all. cbn.
      apply app_nil_r. }
    rewrite Hbuf.
    replace (wrap (start + 1)) with (start + 1)
      by (unfold wrap; rewrite Z.mod_small; [reflexivity | lia]).
    replace (start + Z.of_nat (S n)) with ((start + 1) + Z.of_nat n) by lia.
    destruct (IH (start + 1) got
                 (if decide (got = needle) then out ++ [PrintAddress start] else out))
      as [buf Hbuf']; [lia | lia | |].
    { intros a Ha. apply Hread. lia. }
    exists buf. rewrite Hbuf'. do 3 f_equal.
    assert (Hd : needleAt proc needle start = bool_decide (got = needle))
      by (unfold needleAt; rewrite Hgot; reflexivity).
    rewrite addresses_S. cbn [List.filter]. rewrite Hd.
    destruct (decide (got = needle)) as [He | He].
    + rewrite (bool_decide_eq_true_2 _ He). cbn [List.map]. rewrite <- app_assoc. reflexivity.
    + rewrite (bool_decide_eq_false_2 _ He). reflexivity.
Qed.

Lemma scanString_reports_matches_witness :
  exists buf,
    scanString 6 greetingProcess (list_ascii_of_string "hello") (65536 + Z.of_nat 5) 65536 [] []
    = Some (Done (buf, [] ++ List.map PrintAddress
                                      (List.filter
                                         (needleAt greetingProcess (list_ascii_of_string "hello"))
                                         (addresses 65536 5)))).
Proof.
  apply (scanString_reports_matches greetingProcess (list_ascii_of_string "hello") 5 65536 [] []).
  - lia.
  - vm_compute. reflexivity.
  - intros a Ha.
    assert (Hcases : a = 65536 \/ a = 65537 \/ a = 65538 \/ a = 65539 \/ a = 65540) by lia.
    destruct Hcases as [-> | [-> | [-> | [-> | ->]]]];
      eexists; split; vm_compute; reflexivity.
Defined.

(** ** The command line *)

(** X26: options that are not in the option list are skipped: removing
    them from the command line changes nothing. *)
Theorem parseOptions_skips_unknown_options (opts : list Opt) :
  forall c, parseOptions (List.filter known opts) c = parseOptions opts c.
Proof.
  induction opts as [| o opts IH]; intros c; [reflexivity |].
  destruct o; cbn [List.filter known parseOptions]; try apply IH; try reflexivity.
  destruct (negb (findRef c)); [reflexivity | apply IH].
Qed.

(** X27: [-e] met before any [-f] ends the program through [abort()],
    whatever follows it on the command line. *)
Theorem parseOptions_end_before_start (pre rest : list Opt) (v : Z) :
  forall c,
    findRef c = false ->
    forallb leavesRangeOff pre = true ->
    parseOptions (pre ++ Opt_e v :: rest) c = Undefined Abort.
Proof.
  induction pre as [| o pre IH]; intros c Href Hpre.
  - cbn [app parseOptions]. rewrite Href. reflexivity.
  - cbn [forallb] in Hpre. apply andb_prop in Hpre as [Ho Hpre].
    destruct o; try discriminate; cbn [app parseOptions];
      try (apply IH; [exact Href | exact Hpre]).
    rewrite Href. reflexivity.
Qed.

Lemma parseOptions_end_before_start_witness :
  parseOptions ([Opt_v; Opt_p "_ZTV*"] ++ Opt_e 8192 :: [Opt_f 4096]) initialConfig
  = Undefined Abort.
Proof.
  apply (parseOptions_end_before_start [Opt_v; Opt_p "_ZTV*"] [Opt_f 4096] 8192 initialConfig).
  - reflexivity.
  - reflexivity.
Defined.

Lemma parseOptions_app (a b : list Opt) :
  forall c,
    parseOptions (a ++ b) c =
    match parseOptions a c with
    | Done (Some c1) => parseOptions b c1
    | other => other
    end.
Proof.
  induction a as [| o a IH]; intros c; [reflexivity |].
  destruct o; cbn [app parseOptions]; try apply IH; try reflexivity.
  destruct (negb (findRef c)); [reflexivity | apply IH].
Qed.

(** X28: [-f START] without a later [-e] searches the empty range
    [START, START): the address-range search is on, and the sweep of any
    page prints nothing and counts nothing. *)
Theorem start_without_end_finds_nothing (pre : list Opt) (v : Z) (c0 c : Config) :
  parseOptions (pre ++ [Opt_f v]) c0 = Done (Some c) ->
  findRef c = true /\ minval c = maxval c /\
  forall loc i words l o, scanWords c loc i words (l, o) = (l, o).
Proof.
  rewrite parseOptions_app.
  destruct (parseOptions pre c0) as [[c1 |] | e | u]; try discriminate.
  cbn [parseOptions]. intros [= <-]. cbn [findRef minval maxval].
  split; [reflexivity |]. split; [reflexivity |].
  intros loc i words l o. rewrite scanWords_findRef by reflexivity.
  replace (List.filter _ words) with (@nil Z); [cbn; rewrite app_nil_r; reflexivity |].
  symmetry. induction words as [| p words IH]; [reflexivity |].
  cbn [List.filter]. unfold inSearchedRange at 1. cbn [minval maxval].
  rewrite Z.geb_leb.
  destruct (Z.leb_spec (wrap v) p), (Z.ltb_spec p (wrap v)); cbn [andb]; try exact IH. lia.
Qed.

Lemma start_without_end_finds_nothing_witness :
  findRef {| virtpatterns := []; showaddrs := true; verbose := 0; findRef := true;
             minval := wrap 4096; maxval := wrap 4096; findstr := None |} = true /\
  minval {| virtpatterns := []; showaddrs := true; verbose := 0; findRef := true;
            minval := wrap 4096; maxval := wrap 4096; findstr := None |}
  = maxval {| virtpatterns := []; showaddrs := true; verbose := 0; findRef := true;
              minval := wrap 4096; maxval := wrap 4096; findstr := None |} /\
  forall loc i words l o,
    scanWords {| virtpatterns := []; showaddrs := true; verbose := 0; findRef := true;
                 minval := wrap 4096; maxval := wrap 4096; findstr := None |}
              loc i words (l, o) = (l, o).
Proof.
  apply (start_without_end_finds_nothing [Opt_s] 4096 initialConfig).
  reflexivity.
Defined.

(** X29: when the option loop ends normally and no argument is left,
    neither a core nor a process is made, and the program dereferences
    the null process pointer instead of returning: no usage line, no
    exit code. *)
Theorem main_without_arguments (fuel : nat) (h : Host) (opts : list Opt) (c : Config) :
  parseOptions opts initialConfig = Done (Some c) ->
  mainExcept fuel h opts [] = Some (Undefined NullDeref) /\
  main fuel h opts [] = Some (Undefined NullDeref).
Proof.
  intros Hopts. unfold main, mainExcept. rewrite Hopts. split; reflexivity.
Qed.

Lemma main_without_arguments_witness :
  mainExcept 0 sample_host [Opt_v; Opt_s] [] = Some (Undefined NullDeref) /\
  main 0 sample_host [Opt_v; Opt_s] [] = Some (Undefined NullDeref).
Proof.
  apply (main_without_arguments 0 sample_host [Opt_v; Opt_s]
           {| virtpatterns := []; showaddrs := true; verbose := 1; findRef := false;
              minval := 0; maxval := 0; findstr := None |}).
  reflexivity.
Defined.

(** ** The report *)

Lemma insertBy_Permutation {A} (lt : A -> A -> bool) (x : A) (l : list A) :
  Permutation (insertBy lt x l) (x :: l).
Proof.
  induction l as [| y l IH]; cbn; [reflexivity |].
  destruct (lt y x); [| reflexivity].
  rewrite IH. apply perm_swap.
Qed.

Lemma sortBy_Permutation {A} (lt : A -> A -> bool) (l : list A) :
  Permutation (sortBy lt l) l.
Proof.
  induction l as [| x l IH]; cbn; [reflexivity |].
  rewrite insertBy_Permutation. constructor. exact IH.
Qed.

Lemma insertBy_count_nonIncreasing (x : ListedSymbol) (l : list ListedSymbol) :
  nonIncreasing (List.map count l) ->
  nonIncreasing (List.map count (insertBy (fun l r => count l >? count r) x l)).
Proof.
  induction l as [| y l IH]; intros Hs; cbn.
  - split; [intros z [] | exact I].
  - destruct Hs as [Hy Hl]. destruct (count y >? count x) eqn:Hc; cbn.
    + apply Z.gtb_lt in Hc. split; [| apply IH, Hl].
      intros z Hz. apply in_map_iff in Hz as (s & <- & Hs).
      apply (Permutation_in _ (insertBy_Permutation _ x l)) in Hs.
      destruct Hs as [<- | Hs]; [lia |]. apply Hy, in_map, Hs.
    + rewrite Z.gtb_ltb in Hc. apply Z.ltb_ge in Hc. split; [| split; assumption].
      intros z [<- | Hz]; [exact Hc |]. specialize (Hy z Hz). lia.
Qed.

Lemma filter_count_nonIncreasing (f : ListedSymbol -> bool) (l : list ListedSymbol) :
  nonIncreasing (List.map count l) -> nonIncreasing (List.map count (List.filter f l)).
Proof.
  induction l as [| y l IH]; intros Hs; [exact I |].
  destruct Hs as [Hy Hl]. cbn [List.filter]. destruct (f y); [| apply IH, Hl].
  cbn. split; [| apply IH, Hl].
  intros z Hz. apply Hy. apply in_map_iff in Hz as (s & <- & Hs).
  apply filter_In in Hs as [Hs _]. apply in_map, Hs.
Qed.

Lemma filter_Permutation_list {A} (f : A -> bool) (l l' : list A) :
  Permutation l l' -> Permutation (List.filter f l) (List.filter f l').
Proof.
  induction 1 as [| x l l' _ IH | x y l | l l' l'' _ IH1 _ IH2]; cbn.
  - reflexivity.
  - destruct (f x); [constructor |]; exact IH.
  - destruct (f x), (f y); try reflexivity. apply perm_swap.
  - rewrite IH1. exact IH2.
Qed.

(** X30: the closing report has one row for each listed symbol whose
    counter is not zero and no other row, each row carrying the count,
    the name and the object of its symbol, and the rows are in order of
    count, largest first. *)
Theorem report_rows (l : list ListedSymbol) :
  Permutation (report l) (List.map row (List.filter (fun s => negb (count s =? 0)) l)) /\
  nonIncreasing (List.map rowCount (report l)) /\
  (forall o, In o (report l) -> rowCount o <> 0).
Proof.
  unfold report. fold row. repeat split.
  - apply Permutation_map, filter_Permutation_list, sortBy_Permutation.
  - rewrite List.map_map.
    change (fun x => rowCount (row x)) with count.
    apply filter_count_nonIncreasing. unfold sortBy.
    induction l as [| x l IH]; [exact I |]. cbn [fold_right].
    apply insertBy_count_nonIncreasing, IH.
  - intros o Ho. apply in_map_iff in Ho as (s & <- & Hs).
    apply filter_In in Hs as [_ Hs]. apply negb_true_iff, Z.eqb_neq in Hs. exact Hs.
Qed.
